(** * GJK / EPA narrow-phase queries of fcl: a shallow embedding of [fcl/gjk.h]

    The header declares the Minkowski difference of two shapes, the state of
    the GJK and EPA engines, the intrusive face lists of EPA and the two query
    entry points [shapeDistance2] and [shapeIntersect2].  Everything the
    header defines inline is embedded below as it is written; what it only
    declares (the vector library, the per-shape support mapping and the two
    [evaluate] member functions) is taken as an interface. *)

From Stdlib Require Import ZArith QArith Lia.
From Stdlib Require Import Floats.PrimFloat Numbers.Cyclic.Int63.Uint63.
From stdpp Require Import base option list.

Local Open Scope Z_scope.

(** ** [size_t]

    Counters and indices are [size_t]; the model takes the 64-bit targets the
    library is built for and writes the wrap-around of [++] and [--] out. *)

Definition size_bits : Z := 64.
Definition size_modulus : Z := 2 ^ size_bits.
Definition is_size_t (z : Z) : Prop := 0 <= z < size_modulus.
Definition size_incr (z : Z) : Z := (z + 1) mod size_modulus.
Definition size_decr (z : Z) : Z := (z - 1) mod size_modulus.

(** ** Member arrays of fixed size

    [T a[2]], [T a[3]] and [T a[4]] members.  Reading or writing past the end
    is undefined behaviour in the source; here it yields [None]. *)

Module A2.
Record t (A : Type) := mk { x0 : A; x1 : A }.
Arguments mk {A}.
Arguments x0 {A}.
Arguments x1 {A}.
Definition get {A} (a : t A) (i : Z) : option A :=
  match i with 0 => Some (x0 a) | 1 => Some (x1 a) | _ => None end.
Definition set {A} (a : t A) (i : Z) (v : A) : option (t A) :=
  match i with
  | 0 => Some (mk v (x1 a))
  | 1 => Some (mk (x0 a) v)
  | _ => None
  end.
End A2.

Module A3.
Record t (A : Type) := mk { x0 : A; x1 : A; x2 : A }.
Arguments mk {A}.
Arguments x0 {A}.
Arguments x1 {A}.
Arguments x2 {A}.
Definition get {A} (a : t A) (i : Z) : option A :=
  match i with
  | 0 => Some (x0 a) | 1 => Some (x1 a) | 2 => Some (x2 a) | _ => None
  end.
Definition set {A} (a : t A) (i : Z) (v : A) : option (t A) :=
  match i with
  | 0 => Some (mk v (x1 a) (x2 a))
  | 1 => Some (mk (x0 a) v (x2 a))
  | 2 => Some (mk (x0 a) (x1 a) v)
  | _ => None
  end.
End A3.

Module A4.
Record t (A : Type) := mk { x0 : A; x1 : A; x2 : A; x3 : A }.
Arguments mk {A}.
Arguments x0 {A}.
Arguments x1 {A}.
Arguments x2 {A}.
Arguments x3 {A}.
Definition get {A} (a : t A) (i : Z) : option A :=
  match i with
  | 0 => Some (x0 a) | 1 => Some (x1 a)
  | 2 => Some (x2 a) | 3 => Some (x3 a) | _ => None
  end.
End A4.

(** [for(size_t i = i0; ...; ++i)] running [n] times: the body sees the index
    and the state it updates, and may hit undefined behaviour. *)
Fixpoint for_range {S : Type} (n : nat) (i : Z) (body : Z → S → option S)
    (s : S) : option S :=
  match n with
  | O => Some s
  | Datatypes.S n' => s' ← body i s; for_range n' (i + 1) body s'
  end.

(** ** The collaborators the header includes but does not define

    [fcl/matrix_3f.h], [fcl/transform.h] and [fcl/geometric_shapes.h] give the
    scalar [BVH_REAL], [Vec3f], [Matrix3f], [SimpleTransform] and the shape
    hierarchy; [getSupport] is declared at the top of the header.  The
    embedding is parametric in all of them. *)

Class LinAlg := {
  BVH_REAL : Type;
  Vec3f : Type;
  Matrix3f : Type;
  SimpleTransform : Type;
  ShapeBase : Type;
  (* scalars: conversion of an [int] value, of a [double] literal (given by
     its decimal value), unary minus and product *)
  real_of_int : Z → BVH_REAL;
  real_of_double : Q → BVH_REAL;
  real_neg : BVH_REAL → BVH_REAL;
  real_mul : BVH_REAL → BVH_REAL → BVH_REAL;
  (* [Vec3f()], [Vec3f(x, y, z)], [a + b], [a - b], [-a], [a * s],
     [a.length()] *)
  Vec3f_default : Vec3f;
  Vec3f_xyz : BVH_REAL → BVH_REAL → BVH_REAL → Vec3f;
  vec_add : Vec3f → Vec3f → Vec3f;
  vec_sub : Vec3f → Vec3f → Vec3f;
  vec_neg : Vec3f → Vec3f;
  vec_scale : Vec3f → BVH_REAL → Vec3f;
  vec_length : Vec3f → BVH_REAL;
  (* [Matrix3f()], [m * v], [a.transposeTimes(b)] *)
  Matrix3f_default : Matrix3f;
  mat_mul_vec : Matrix3f → Vec3f → Vec3f;
  transposeTimes : Matrix3f → Matrix3f → Matrix3f;
  (* [SimpleTransform()], [t.getRotation()], [a.inverseTimes(b)],
     [t.transform(v)] *)
  SimpleTransform_default : SimpleTransform;
  getRotation : SimpleTransform → Matrix3f;
  inverseTimes : SimpleTransform → SimpleTransform → SimpleTransform;
  transform : SimpleTransform → Vec3f → Vec3f;
  (* [Vec3f getSupport(const ShapeBase* shape, const Vec3f& dir)] *)
  getSupport : ShapeBase → Vec3f → Vec3f
}.

(** ** Compile-time budgets *)

Definition GJK_EPS_literal : Q := 0.000001.
Definition GJK_MAX_ITERATIONS : Z := 128.

Definition EPA_MAX_FACES : Z := 128.
Definition EPA_MAX_VERTICES : Z := 64.
Definition EPA_EPS_literal : Q := 0.000001.
Definition EPA_MAX_ITERATIONS : Z := 255.

Definition GJK_EPS `{LinAlg} : BVH_REAL := real_of_double GJK_EPS_literal.
Definition EPA_EPS `{LinAlg} : BVH_REAL := real_of_double EPA_EPS_literal.

(** ** MinkowskiDiff

    [shapes] holds pointers to the two (immutable) shapes of the query; the
    support mapping receives the pointer as it is, so the model stores the
    shape. *)

Record MinkowskiDiff `{LinAlg} := {
  shapes : A2.t ShapeBase;
  toshape1 : Matrix3f;
  toshape0 : SimpleTransform
}.

Definition support0 `{LinAlg} (M : MinkowskiDiff) (d : Vec3f) : Vec3f :=
  getSupport (A2.x0 (shapes M)) d.

Definition support1 `{LinAlg} (M : MinkowskiDiff) (d : Vec3f) : Vec3f :=
  transform (toshape0 M)
    (getSupport (A2.x1 (shapes M)) (mat_mul_vec (toshape1 M) d)).

(** [support(d)] *)
Definition support `{LinAlg} (M : MinkowskiDiff) (d : Vec3f) : Vec3f :=
  vec_sub (support0 M d) (support1 M (vec_neg d)).

(** [support(d, index)]: [if(index)] tests the index against zero. *)
Definition support_at `{LinAlg} (M : MinkowskiDiff) (d : Vec3f) (index : Z)
    : Vec3f :=
  if decide (index = 0) then support0 M d else support1 M d.

(** ** The GJK engine *)

Module GJK.

(** [struct SimplexV] *)
Record SimplexV `{LinAlg} := {
  d : Vec3f; (* support direction *)
  w : Vec3f  (* support vector *)
}.

(** A [SimplexV*].  The only [SimplexV] objects of the header live in
    [GJK::store_v] and in [EPA::sv_store]; a pointer is null or designates a
    slot of one of the two arrays. *)
Inductive SimplexV_ptr :=
| SV_null
| SV_store_v (i : Z)      (* [&gjk.store_v[i]] *)
| SV_sv_store (i : nat).  (* [&epa.sv_store[i]] *)

(** [struct Simplex] *)
Record Simplex `{LinAlg} := {
  c : A4.t SimplexV_ptr; (* simplex vertex *)
  p : A4.t BVH_REAL;     (* weight *)
  rank : Z               (* size of simplex (number of vertices) *)
}.

Inductive Status := Valid | Inside | Failed.

#[global] Instance Status_eq_dec : EqDecision Status.
Proof. solve_decision. Defined.

(** [struct GJK]; [simplex] points into [simplices] ([None] is the null
    pointer, [Some k] is [&simplices[k]]). *)
Record t `{LinAlg} := {
  shape : MinkowskiDiff;
  ray : Vec3f;
  distance : BVH_REAL;
  simplices : A2.t Simplex;
  store_v : A4.t SimplexV;
  free_v : A4.t SimplexV_ptr;
  nfree : Z;
  current : Z;
  simplex : option Z;
  status : Status
}.

(** [void initialize()] *)
Definition initialize `{LinAlg} (g : t) : t :=
  {| shape := shape g;
     ray := Vec3f_default;
     distance := real_of_double 0;
     simplices := simplices g;
     store_v := store_v g;
     free_v := free_v g;
     nfree := 0;
     current := 0;
     simplex := simplex g;
     status := Failed |}.

(** What the storage of a [GJK] object holds, before the constructor runs,
    in the members that have no constructor of their own. *)
Record uninit `{LinAlg} := {
  u_shapes : A2.t ShapeBase;
  u_simplices : A2.t Simplex;
  u_free_v : A4.t SimplexV_ptr;
  u_simplex : option Z;
  u_distance : BVH_REAL;
  u_nfree : Z;
  u_current : Z;
  u_status : Status
}.

(** [GJK() { initialize(); }]: the class-type members are default
    constructed, the others keep what the storage held, then the body runs. *)
Definition construct `{LinAlg} (u : uninit) : t :=
  let sv := {| d := Vec3f_default; w := Vec3f_default |} in
  initialize
    {| shape := {| shapes := u_shapes u;
                   toshape1 := Matrix3f_default;
                   toshape0 := SimpleTransform_default |};
       ray := Vec3f_default;
       distance := u_distance u;
       simplices := u_simplices u;
       store_v := A4.mk sv sv sv sv;
       free_v := u_free_v u;
       nfree := u_nfree u;
       current := u_current u;
       simplex := u_simplex u;
       status := u_status u |}.

(** [Simplex* getSimplex() const] *)
Definition getSimplex `{LinAlg} (g : t) : option Z := simplex g.

(** [*ptr] for a [Simplex*] obtained from [g]. *)
Definition Simplex_at `{LinAlg} (g : t) (ptr : option Z) : option Simplex :=
  k ← ptr; A2.get (simplices g) k.

(** [*ptr] for a [SimplexV*], with the two vertex arrays alive at that point
    ([sv_store] is empty where no EPA engine exists). *)
Definition SimplexV_at `{LinAlg} (store : A4.t SimplexV)
    (sv_store : list SimplexV) (ptr : SimplexV_ptr) : option SimplexV :=
  match ptr with
  | SV_null => None
  | SV_store_v i => A4.get store i
  | SV_sv_store i => sv_store !! i
  end.

End GJK.

(** ** The EPA engine *)

Module EPA.

(** A [SimplexF*]: null, or a slot of [fc_store]. *)
Definition SimplexF_ptr := option nat.

(** [struct SimplexF] *)
Record SimplexF `{LinAlg} := {
  n : Vec3f;
  d : BVH_REAL;
  c : A3.t GJK.SimplexV_ptr; (* a face has three vertices *)
  f : A3.t SimplexF_ptr;     (* a face has three adjacent faces *)
  l : A2.t SimplexF_ptr;     (* the pre and post faces in the list *)
  e : A3.t Z;
  pass : Z
}.

Definition with_l `{LinAlg} (fc : SimplexF) (k : Z) (v : SimplexF_ptr)
    : option SimplexF :=
  l' ← A2.set (l fc) k v;
  Some {| n := n fc; d := d fc; c := c fc; f := f fc; l := l';
          e := e fc; pass := pass fc |}.

Definition with_e `{LinAlg} (fc : SimplexF) (k : Z) (v : Z) : option SimplexF :=
  e' ← A3.set (e fc) k v;
  Some {| n := n fc; d := d fc; c := c fc; f := f fc; l := l fc;
          e := e'; pass := pass fc |}.

Definition with_f `{LinAlg} (fc : SimplexF) (k : Z) (v : SimplexF_ptr)
    : option SimplexF :=
  f' ← A3.set (f fc) k v;
  Some {| n := n fc; d := d fc; c := c fc; f := f'; l := l fc;
          e := e fc; pass := pass fc |}.

(** The face arena: reading through a face pointer, and assigning to a member
    of the face it designates.  A null or out-of-range pointer is undefined
    behaviour. *)
Definition load `{LinAlg} (fcs : list SimplexF) (ptr : SimplexF_ptr)
    : option SimplexF :=
  i ← ptr; fcs !! i.

Definition assign `{LinAlg} (fcs : list SimplexF) (ptr : SimplexF_ptr)
    (upd : SimplexF → option SimplexF) : option (list SimplexF) :=
  i ← ptr; fc ← fcs !! i; fc' ← upd fc; Some (<[i := fc']> fcs).

(** [struct SimplexList] *)
Record SimplexList := {
  root : SimplexF_ptr;
  count : Z
}.

(** [SimplexList() : root(NULL), count(0) {}] *)
Definition SimplexList_new : SimplexList := {| root := None; count := 0 |}.

(** [void append(SimplexF* face)] *)
Definition append `{LinAlg} (fcs : list SimplexF) (L : SimplexList)
    (face : SimplexF_ptr) : option (list SimplexF * SimplexList) :=
  fcs1 ← assign fcs face (λ fc, with_l fc 0 None);
  fcs2 ← assign fcs1 face (λ fc, with_l fc 1 (root L));
  fcs3 ← match root L with
         | Some _ => assign fcs2 (root L) (λ fc, with_l fc 0 face)
         | None => Some fcs2
         end;
  Some (fcs3, {| root := face; count := size_incr (count L) |}).

(** [void remove(SimplexF* face)] *)
Definition remove `{LinAlg} (fcs : list SimplexF) (L : SimplexList)
    (face : SimplexF_ptr) : option (list SimplexF * SimplexList) :=
  fc ← load fcs face;
  nx ← A2.get (l fc) 1;
  fcs1 ← match nx with
         | Some _ =>
             fc' ← load fcs face;
             pv ← A2.get (l fc') 0;
             assign fcs nx (λ x, with_l x 0 pv)
         | None => Some fcs
         end;
  fc1 ← load fcs1 face;
  pv1 ← A2.get (l fc1) 0;
  fcs2 ← match pv1 with
         | Some _ =>
             fc1' ← load fcs1 face;
             nx1 ← A2.get (l fc1') 1;
             assign fcs1 pv1 (λ x, with_l x 1 nx1)
         | None => Some fcs1
         end;
  root' ← (if decide (face = root L)
           then fc2 ← load fcs2 face; A2.get (l fc2) 1
           else Some (root L));
  Some (fcs2, {| root := root'; count := size_decr (count L) |}).

(** [static inline void bind(SimplexF* fa, size_t ea, SimplexF* fb, size_t eb)] *)
Definition bind `{LinAlg} (fcs : list SimplexF) (fa : SimplexF_ptr) (ea : Z)
    (fb : SimplexF_ptr) (eb : Z) : option (list SimplexF) :=
  fcs1 ← assign fcs fa (λ x, with_e x ea eb);
  fcs2 ← assign fcs1 fa (λ x, with_f x ea fb);
  fcs3 ← assign fcs2 fb (λ x, with_e x eb ea);
  assign fcs3 fb (λ x, with_f x eb fa).

(** [struct SimplexHorizon] and its constructor *)
Record SimplexHorizon := {
  cf : SimplexF_ptr; (* current face in the horizon *)
  ff : SimplexF_ptr; (* first face in the horizon *)
  nf : Z             (* number of faces in the horizon *)
}.

Definition SimplexHorizon_new : SimplexHorizon :=
  {| cf := None; ff := None; nf := 0 |}.

Inductive Status :=
| Valid | Touching | Degenerated | NonConvex | InvalidHull
| OutOfFaces | OutOfVertices | AccuracyReached | FallBack | Failed.

#[global] Instance Status_eq_dec : EqDecision Status.
Proof. solve_decision. Defined.

(** [struct EPA] *)
Record t `{LinAlg} := {
  status : Status;
  result : GJK.Simplex;
  normal : Vec3f;
  depth : BVH_REAL;
  sv_store : list GJK.SimplexV; (* [SimplexV sv_store[EPA_MAX_VERTICES]] *)
  fc_store : list SimplexF;     (* [SimplexF fc_store[EPA_MAX_FACES]] *)
  nextsv : Z;
  hull : SimplexList;
  stock : SimplexList
}.

(** The body of the loop of [initialize]:
    [stock.append(&fc_store[EPA_MAX_FACES-i-1])]. *)
Definition initialize_step `{LinAlg} (i : Z)
    (s : list SimplexF * SimplexList) : option (list SimplexF * SimplexList) :=
  append s.1 s.2 (Some (Z.to_nat (EPA_MAX_FACES - i - 1))).

(** [void initialize()] *)
Definition initialize `{LinAlg} (ep : t) : option t :=
  s ← for_range (Z.to_nat EPA_MAX_FACES) 0 initialize_step
        (fc_store ep, stock ep);
  Some {| status := Failed;
          result := result ep;
          normal := Vec3f_xyz (real_of_int 0) (real_of_int 0) (real_of_int 0);
          depth := real_of_int 0;
          sv_store := sv_store ep;
          fc_store := s.1;
          nextsv := 0;
          hull := hull ep;
          stock := s.2 |}.

(** What the storage of an [EPA] object holds, before the constructor runs,
    in the members that have no constructor of their own: [result], the
    scalars, and the scalar and pointer members of the face slots (slot [i]
    as [u_face i]). *)
Record uninit `{LinAlg} := {
  u_status : Status;
  u_result : GJK.Simplex;
  u_depth : BVH_REAL;
  u_nextsv : Z;
  u_face : nat → SimplexF
}.

(** [EPA() { initialize(); }]: [normal], the vertices of [sv_store] and the
    normals of the faces are default constructed, both lists are constructed
    empty, then the body runs. *)
Definition construct `{LinAlg} (u : uninit) : option t :=
  let sv := {| GJK.d := Vec3f_default; GJK.w := Vec3f_default |} in
  let face (i : nat) :=
    let x := u_face u i in
    {| n := Vec3f_default; d := d x; c := c x; f := f x; l := l x;
       e := e x; pass := pass x |} in
  initialize
    {| status := u_status u;
       result := u_result u;
       normal := Vec3f_default;
       depth := u_depth u;
       sv_store := replicate (Z.to_nat EPA_MAX_VERTICES) sv;
       fc_store := face <$> seq 0 (Z.to_nat EPA_MAX_FACES);
       nextsv := u_nextsv u;
       hull := SimplexList_new;
       stock := SimplexList_new |}.

End EPA.

(** ** The two engines' [evaluate]

    [GJK::evaluate] and [EPA::evaluate] are declared in the header and defined
    elsewhere.  Each returns its status and updates the engine it is called on;
    [EPA::evaluate] also receives the GJK engine by reference. *)

Class Evaluators `{LinAlg} := {
  GJK_evaluate : GJK.t → MinkowskiDiff → Vec3f → GJK.Status * GJK.t;
  EPA_evaluate : EPA.t → GJK.t → Vec3f → EPA.Status * EPA.t * GJK.t
}.

(** ** Query entry points *)

(** [Vec3f guess(1, 0, 0)] *)
Definition guess `{LinAlg} : Vec3f :=
  Vec3f_xyz (real_of_int 1) (real_of_int 0) (real_of_int 0).

(** The Minkowski difference both queries build from their arguments. *)
Definition query_shape `{LinAlg} (s1 : ShapeBase) (tf1 : SimpleTransform)
    (s2 : ShapeBase) (tf2 : SimpleTransform) : MinkowskiDiff :=
  {| shapes := A2.mk s1 s2;
     toshape1 := transposeTimes (getRotation tf2) (getRotation tf1);
     toshape0 := inverseTimes tf1 tf2 |}.

(** The body of the loop of [shapeDistance2]. *)
Definition distance_step `{LinAlg} (shape : MinkowskiDiff) (gjk : GJK.t)
    (i : Z) (acc : Vec3f * Vec3f) : option (Vec3f * Vec3f) :=
  sx ← GJK.Simplex_at gjk (GJK.getSimplex gjk);
  p ← A4.get (GJK.p sx) i;
  ci ← A4.get (GJK.c sx) i;
  v ← GJK.SimplexV_at (GJK.store_v gjk) [] ci;
  Some (vec_add acc.1 (vec_scale (support_at shape (GJK.d v) 0) p),
        vec_add acc.2 (vec_scale (support_at shape (vec_neg (GJK.d v)) 1) p)).

(** [shapeDistance2(s1, tf1, s2, tf2, distance)].  [u] is what the storage of
    the local engine held before; the result is the returned flag with the
    value left in [*distance], or [None] on undefined behaviour. *)
Definition shapeDistance2 `{Evaluators} (u : GJK.uninit)
    (s1 : ShapeBase) (tf1 : SimpleTransform)
    (s2 : ShapeBase) (tf2 : SimpleTransform) : option (bool * BVH_REAL) :=
  let shape := query_shape s1 tf1 s2 tf2 in
  let gjk := GJK.construct u in
  let '(gjk_status, gjk) := GJK_evaluate gjk shape (vec_neg guess) in
  match gjk_status with
  | GJK.Valid =>
      sx ← GJK.Simplex_at gjk (GJK.getSimplex gjk);
      ws ← for_range (Z.to_nat (GJK.rank sx)) 0 (distance_step shape gjk)
             (Vec3f_default, Vec3f_default);
      Some (true, vec_length (vec_sub ws.1 ws.2))
  | _ => Some (false, real_of_int (-1))
  end.

(** An optional output parameter: [None] is a null pointer, [Some v] a pointer
    to an object holding [v].  [if(ptr) *ptr = v;] *)
Definition write_out {A : Type} (ptr : option A) (v : A) : option A :=
  match ptr with Some _ => Some v | None => None end.

(** What [shapeIntersect2] returns and leaves behind its three pointers. *)
Record Intersection `{LinAlg} := {
  overlap : bool;
  contact_points : option Vec3f;
  penetration_depth : option BVH_REAL;
  normal : option Vec3f
}.

(** The body of the loop of [shapeIntersect2]. *)
Definition contact_step `{LinAlg} (shape : MinkowskiDiff) (gjk : GJK.t)
    (epa : EPA.t) (i : Z) (w0 : Vec3f) : option Vec3f :=
  ci ← A4.get (GJK.c (EPA.result epa)) i;
  v ← GJK.SimplexV_at (GJK.store_v gjk) (EPA.sv_store epa) ci;
  p ← A4.get (GJK.p (EPA.result epa)) i;
  Some (vec_add w0 (vec_scale (support_at shape (GJK.d v) 0) p)).

(** [shapeIntersect2(s1, tf1, s2, tf2, contact_points, penetration_depth,
    normal)]; [ug] and [ue] are the previous contents of the storage of the two
    local engines. *)
Definition shapeIntersect2 `{Evaluators} (ug : GJK.uninit) (ue : EPA.uninit)
    (s1 : ShapeBase) (tf1 : SimpleTransform)
    (s2 : ShapeBase) (tf2 : SimpleTransform)
    (contact_points : option Vec3f) (penetration_depth : option BVH_REAL)
    (normal : option Vec3f) : option Intersection :=
  let shape := query_shape s1 tf1 s2 tf2 in
  let gjk := GJK.construct ug in
  let '(gjk_status, gjk) := GJK_evaluate gjk shape (vec_neg guess) in
  let unchanged :=
    {| overlap := false; contact_points := contact_points;
       penetration_depth := penetration_depth; normal := normal |} in
  match gjk_status with
  | GJK.Inside =>
      epa ← EPA.construct ue;
      let '(epa_status, epa, gjk) := EPA_evaluate epa gjk (vec_neg guess) in
      if decide (epa_status ≠ EPA.Failed) then
        w0 ← for_range (Z.to_nat (GJK.rank (EPA.result epa))) 0
               (contact_step shape gjk epa) Vec3f_default;
        Some {| overlap := true;
                contact_points :=
                  write_out contact_points
                    (transform tf1
                       (vec_sub w0
                          (vec_scale (EPA.normal epa)
                             (real_mul (EPA.depth epa) (real_of_double 0.5)))));
                penetration_depth :=
                  write_out penetration_depth (real_neg (EPA.depth epa));
                normal := write_out normal (vec_neg (EPA.normal epa)) |}
      else Some unchanged
  | _ => Some unchanged
  end.

(** ** Output parameters that may designate the same object

    [shapeIntersect2] above keeps one cell per output parameter.  A caller
    may as well pass pointers to one and the same object: [contact_points]
    and [normal] are both [Vec3f*].  Here the objects of the caller are
    numbered, the [Vec3f] ones and the [BVH_REAL] ones apart; a pointer is
    null or the number of an object, and a store through a pointer that is
    not null and designates none of them is undefined.  The objects are whole
    objects, other than the arguments [s1], [tf1], [s2], [tf2] and the
    engines. *)

Record Objects `{LinAlg} := {
  vectors : list Vec3f;
  reals : list BVH_REAL
}.

(** A pointer is null or designates one of the objects [l]. *)
Definition designates {A : Type} (l : list A) (ptr : option nat) : Prop :=
  match ptr with
  | Some a => is_Some (l !! a)
  | None => True
  end.

(** [if(ptr) *ptr = v;] for a [Vec3f*] *)
Definition store_vector `{LinAlg} (ptr : option nat) (v : Vec3f)
    (m : Objects) : option Objects :=
  match ptr with
  | Some a =>
      _ ← vectors m !! a;
      Some {| vectors := <[a:=v]> (vectors m); reals := reals m |}
  | None => Some m
  end.

(** [if(ptr) *ptr = x;] for a [BVH_REAL*] *)
Definition store_real `{LinAlg} (ptr : option nat) (x : BVH_REAL)
    (m : Objects) : option Objects :=
  match ptr with
  | Some a =>
      _ ← reals m !! a;
      Some {| vectors := vectors m; reals := <[a:=x]> (reals m) |}
  | None => Some m
  end.

(** [shapeIntersect2] once more, with the three stores made in the order of
    the source on the objects [m] of the caller: the result is the returned
    flag with the objects as the call leaves them. *)
Definition shapeIntersect2_ptr `{Evaluators} (ug : GJK.uninit)
    (ue : EPA.uninit)
    (s1 : ShapeBase) (tf1 : SimpleTransform)
    (s2 : ShapeBase) (tf2 : SimpleTransform)
    (contact_points penetration_depth normal : option nat) (m : Objects)
    : option (bool * Objects) :=
  let shape := query_shape s1 tf1 s2 tf2 in
  let gjk := GJK.construct ug in
  let '(gjk_status, gjk) := GJK_evaluate gjk shape (vec_neg guess) in
  match gjk_status with
  | GJK.Inside =>
      epa ← EPA.construct ue;
      let '(epa_status, epa, gjk) := EPA_evaluate epa gjk (vec_neg guess) in
      if decide (epa_status ≠ EPA.Failed) then
        w0 ← for_range (Z.to_nat (GJK.rank (EPA.result epa))) 0
               (contact_step shape gjk epa) Vec3f_default;
        m ← store_real penetration_depth (real_neg (EPA.depth epa)) m;
        m ← store_vector normal (vec_neg (EPA.normal epa)) m;
        m ← store_vector contact_points
              (transform tf1
                 (vec_sub w0
                    (vec_scale (EPA.normal epa)
                       (real_mul (EPA.depth epa) (real_of_double 0.5))))) m;
        Some (true, m)
      else Some (false, m)
  | _ => Some (false, m)
  end.

(** ** Reading the data structures

    The notions the properties below are stated with: the vertices a simplex
    has in use, the weighted sum the queries accumulate, the faces a list
    links, and the neighbour a face records across an edge. *)

(** Vertex [i] of a simplex as the queries read it: the direction
    [c[i]->d] and the weight [p[i]]. *)
Definition Simplex_vertex `{LinAlg} (store : A4.t GJK.SimplexV)
    (sv_store : list GJK.SimplexV) (sx : GJK.Simplex) (i : Z)
    : option (Vec3f * BVH_REAL) :=
  ci ← A4.get (GJK.c sx) i;
  v ← GJK.SimplexV_at store sv_store ci;
  p ← A4.get (GJK.p sx) i;
  Some (GJK.d v, p).

(** The vertices [0 .. rank-1] of a simplex. *)
Definition Simplex_vertices `{LinAlg} (store : A4.t GJK.SimplexV)
    (sv_store : list GJK.SimplexV) (sx : GJK.Simplex)
    : option (list (Vec3f * BVH_REAL)) :=
  mapM (Simplex_vertex store sv_store sx)
       (Z.of_nat <$> seq 0 (Z.to_nat (GJK.rank sx))).

(** The terminal simplex of a GJK engine. *)
Definition GJK_vertices `{LinAlg} (gjk : GJK.t)
    : option (list (Vec3f * BVH_REAL)) :=
  sx ← GJK.Simplex_at gjk (GJK.getSimplex gjk);
  Simplex_vertices (GJK.store_v gjk) [] sx.

(** The result simplex of an EPA engine, its vertices being those of the GJK
    engine it ran on or its own. *)
Definition EPA_vertices `{LinAlg} (gjk : GJK.t) (epa : EPA.t)
    : option (list (Vec3f * BVH_REAL)) :=
  Simplex_vertices (GJK.store_v gjk) (EPA.sv_store epa) (EPA.result epa).

(** Points added one after the other to [acc], each scaled by its weight. *)
Definition accumulate `{LinAlg} (acc : Vec3f)
    (pts : list (Vec3f * BVH_REAL)) : Vec3f :=
  foldl (λ a x, vec_add a (vec_scale x.1 x.2)) acc pts.

(** Points summed with their weights, starting from [Vec3f()]. *)
Definition weighted_sum `{LinAlg} (pts : list (Vec3f * BVH_REAL)) : Vec3f :=
  accumulate Vec3f_default pts.

(** The witness point on shape 0, from [support(d_i, 0)], and the one on
    shape 1, from [support(-d_i, 1)]. *)
Definition witness0 `{LinAlg} (shape : MinkowskiDiff)
    (vs : list (Vec3f * BVH_REAL)) : Vec3f :=
  weighted_sum ((λ x, (support_at shape x.1 0, x.2)) <$> vs).

Definition witness1 `{LinAlg} (shape : MinkowskiDiff)
    (vs : list (Vec3f * BVH_REAL)) : Vec3f :=
  weighted_sum ((λ x, (support_at shape (vec_neg x.1) 1, x.2)) <$> vs).

(** Following [l[1]] from a face until the null pointer, checking that each
    face's [l[0]] is the face visited before it. *)
Fixpoint walk `{LinAlg} (fuel : nat) (fcs : list EPA.SimplexF)
    (prev cur : EPA.SimplexF_ptr) : option (list nat) :=
  match cur with
  | None => Some []
  | Some i =>
      match fuel with
      | O => None
      | S fuel' =>
          fc ← fcs !! i;
          if decide (A2.x0 (EPA.l fc) = prev)
          then (i ::.) <$> walk fuel' fcs (Some i) (A2.x1 (EPA.l fc))
          else None
      end
  end.

(** A face pointer that is null or designates a slot of the arena. *)
Definition in_arena `{LinAlg} (fcs : list EPA.SimplexF)
    (ptr : EPA.SimplexF_ptr) : Prop :=
  ∀ r, ptr = Some r → (r < length fcs)%nat.

(** The faces of a list, first to last; [None] when the links do not form a
    list.  A list of distinct slots has at most [length fcs] faces. *)
Definition faces_of `{LinAlg} (fcs : list EPA.SimplexF) (L : EPA.SimplexList)
    : option (list nat) :=
  walk (length fcs) fcs None (EPA.root L).

(** [(ptr->f[k], ptr->e[k])]: the face across edge [k] and the edge it is
    recorded under there. *)
Definition neighbour `{LinAlg} (fcs : list EPA.SimplexF)
    (ptr : EPA.SimplexF_ptr) (k : Z) : option (EPA.SimplexF_ptr * Z) :=
  fc ← EPA.load fcs ptr;
  q ← A3.get (EPA.f fc) k;
  k' ← A3.get (EPA.e fc) k;
  Some (q, k').

(** ** Outcome of the engines

    What a query reads of the engines once they have run: the status, and
    with it the vertices of the terminal simplex (GJK), or the depth, the
    normal and the vertices of the result simplex (EPA). *)

Definition GJK_outcome `{Evaluators} (u : GJK.uninit) (shape : MinkowskiDiff)
    (g0 : Vec3f) : GJK.Status * option (list (Vec3f * BVH_REAL)) :=
  let r := GJK_evaluate (GJK.construct u) shape g0 in
  (r.1, GJK_vertices r.2).

Definition EPA_outcome `{Evaluators} (ug : GJK.uninit) (ue : EPA.uninit)
    (shape : MinkowskiDiff) (g0 g1 : Vec3f)
    : option (EPA.Status * BVH_REAL * Vec3f
              * option (list (Vec3f * BVH_REAL))) :=
  let r := GJK_evaluate (GJK.construct ug) shape g0 in
  epa ← EPA.construct ue;
  let r' := EPA_evaluate epa r.2 g1 in
  Some (r'.1.1, EPA.depth r'.1.2, EPA.normal r'.1.2,
        EPA_vertices r'.2 r'.1.2).

(** The two queries as functions of the outcome of the engines. *)
Definition distance_of_outcome `{LinAlg} (shape : MinkowskiDiff)
    (o : GJK.Status * option (list (Vec3f * BVH_REAL)))
    : option (bool * BVH_REAL) :=
  match o.1 with
  | GJK.Valid =>
      vs ← o.2;
      Some (true, vec_length (vec_sub (witness0 shape vs) (witness1 shape vs)))
  | _ => Some (false, real_of_int (-1))
  end.

Definition intersect_of_outcome `{LinAlg} (shape : MinkowskiDiff)
    (tf1 : SimpleTransform) (cp : option Vec3f) (pd : option BVH_REAL)
    (nm : option Vec3f) (st : GJK.Status)
    (o : option (EPA.Status * BVH_REAL * Vec3f
                 * option (list (Vec3f * BVH_REAL))))
    : option Intersection :=
  let unchanged :=
    {| overlap := false; contact_points := cp; penetration_depth := pd;
       normal := nm |} in
  match st with
  | GJK.Inside =>
      r ← o;
      if decide (r.1.1.1 ≠ EPA.Failed) then
        vs ← r.2;
        Some {| overlap := true;
                contact_points :=
                  write_out cp
                    (transform tf1
                       (vec_sub (witness0 shape vs)
                          (vec_scale r.1.2
                             (real_mul r.1.1.2 (real_of_double 0.5)))));
                penetration_depth := write_out pd (real_neg r.1.1.2);
                normal := write_out nm (vec_neg r.1.2) |}
      else Some unchanged
  | _ => Some unchanged
  end.

(** The spec's reading of the EPA statuses: [AccuracyReached] is the normal
    success, [Touching] is a contact of depth zero and [FallBack] a
    best-effort result; exhausted arenas ([OutOfFaces], [OutOfVertices]),
    degenerate geometry ([Degenerated], [NonConvex], [InvalidHull]) and
    [Failed] are its failure modes; [Valid] is not terminal. *)
Definition spec_EPA_success (st : EPA.Status) : bool :=
  match st with
  | EPA.AccuracyReached | EPA.Touching | EPA.FallBack | EPA.Valid => true
  | _ => false
  end.

(** The engines are functions of what their constructors initialised: the
    previous contents of their storage do not show in the outcome. *)
Definition engines_ignore_uninit `{Evaluators} : Prop :=
  ∀ ug1 ug2 ue1 ue2 shape g0 g1,
    GJK_outcome ug1 shape g0 = GJK_outcome ug2 shape g0 ∧
    EPA_outcome ug1 ue1 shape g0 g1 = EPA_outcome ug2 ue2 shape g0 g1.

(** ** An instance: IEEE doubles, spheres, and scripted engines

    [BVH_REAL] is [double], vectors and matrices are arrays of three and nine
    doubles, a rigid transform is a rotation and a translation, and the shapes
    are spheres about the origin of their frame.  The engines are test
    doubles: they seed their simplex with the support point along the guess
    and report the status they are told to. *)

Module Double.

Local Open Scope float_scope.

Definition of_Z (z : Z) : float :=
  match z with
  | Z0 => 0
  | Zpos _ => PrimFloat.of_uint63 (Uint63.of_Z z)
  | Zneg q => - PrimFloat.of_uint63 (Uint63.of_Z (Zpos q))
  end.

Definition of_Q (q : Q) : float := of_Z (Qnum q) / of_Z (Zpos (Qden q)).

Record Vec := { x : float; y : float; z : float }.
Record Mat := { r0 : Vec; r1 : Vec; r2 : Vec }.
Record Tf := { R : Mat; T : Vec }.
Record Sphere := { radius : float }.

Definition add (a b : Vec) : Vec :=
  {| x := x a + x b; y := y a + y b; z := z a + z b |}.
Definition sub (a b : Vec) : Vec :=
  {| x := x a - x b; y := y a - y b; z := z a - z b |}.
Definition neg (a : Vec) : Vec := {| x := - x a; y := - y a; z := - z a |}.
Definition scale (a : Vec) (s : float) : Vec :=
  {| x := x a * s; y := y a * s; z := z a * s |}.
Definition dot (a b : Vec) : float := x a * x b + y a * y b + z a * z b.
Definition norm (a : Vec) : float := PrimFloat.sqrt (dot a a).

Definition mul_vec (m : Mat) (v : Vec) : Vec :=
  {| x := dot (r0 m) v; y := dot (r1 m) v; z := dot (r2 m) v |}.
Definition col (m : Mat) (k : Vec → float) : Vec :=
  {| x := k (r0 m); y := k (r1 m); z := k (r2 m) |}.
Definition transpose (m : Mat) : Mat :=
  {| r0 := col m x; r1 := col m y; r2 := col m z |}.
Definition mul (a b : Mat) : Mat :=
  let bt := transpose b in
  {| r0 := mul_vec bt (r0 a); r1 := mul_vec bt (r1 a);
     r2 := mul_vec bt (r2 a) |}.
Definition identity : Mat :=
  {| r0 := {| x := 1; y := 0; z := 0 |};
     r1 := {| x := 0; y := 1; z := 0 |};
     r2 := {| x := 0; y := 0; z := 1 |} |}.
Definition zero : Vec := {| x := 0; y := 0; z := 0 |}.

Definition sphere_support (s : Sphere) (dir : Vec) : Vec :=
  scale dir (radius s / norm dir).

Definition lin_alg : LinAlg :=
  {| BVH_REAL := float;
     Vec3f := Vec;
     Matrix3f := Mat;
     SimpleTransform := Tf;
     ShapeBase := Sphere;
     real_of_int := of_Z;
     real_of_double := of_Q;
     real_neg := PrimFloat.opp;
     real_mul := PrimFloat.mul;
     Vec3f_default := zero;
     Vec3f_xyz := λ a b c, {| x := a; y := b; z := c |};
     vec_add := add;
     vec_sub := sub;
     vec_neg := neg;
     vec_scale := scale;
     vec_length := norm;
     Matrix3f_default := identity;
     mat_mul_vec := mul_vec;
     transposeTimes := λ a b, mul (transpose a) b;
     SimpleTransform_default := {| R := identity; T := zero |};
     getRotation := R;
     inverseTimes := λ a b,
       {| R := mul (transpose (R a)) (R b);
          T := mul_vec (transpose (R a)) (sub (T b) (T a)) |};
     transform := λ t v, add (mul_vec (R t) v) (T t);
     getSupport := sphere_support |}.

#[local] Existing Instance lin_alg.

(** A GJK engine that stops after seeding: one vertex, weight one. *)
Definition scripted_GJK (st : GJK.Status) (g : @GJK.t lin_alg)
    (shape : @MinkowskiDiff lin_alg) (g0 : Vec)
    : GJK.Status * @GJK.t lin_alg :=
  let v := {| GJK.d := g0; GJK.w := @support lin_alg shape g0 |} in
  let sx :=
    {| GJK.c := A4.mk (GJK.SV_store_v 0) GJK.SV_null GJK.SV_null GJK.SV_null;
       GJK.p := A4.mk 1 0 0 0;
       GJK.rank := 1%Z |} in
  (st,
   {| GJK.shape := shape;
      GJK.ray := GJK.w v;
      GJK.distance := norm (GJK.w v);
      GJK.simplices := A2.mk sx (A2.x1 (GJK.simplices g));
      GJK.store_v :=
        A4.mk v (A4.x1 (GJK.store_v g)) (A4.x2 (GJK.store_v g))
          (A4.x3 (GJK.store_v g));
      GJK.free_v :=
        A4.mk (GJK.SV_store_v 3) (GJK.SV_store_v 2) (GJK.SV_store_v 1)
          GJK.SV_null;
      GJK.nfree := 3%Z;
      GJK.current := 0%Z;
      GJK.simplex := Some 0%Z;
      GJK.status := st |}).

(** An EPA engine that answers with the GJK vertex and one of its own, half
    the weight on each, along the guess. *)
Definition scripted_EPA (st : EPA.Status) (ep : @EPA.t lin_alg)
    (g : @GJK.t lin_alg) (g1 : Vec)
    : EPA.Status * @EPA.t lin_alg * @GJK.t lin_alg :=
  let v := {| GJK.d := g1; GJK.w := @support lin_alg (GJK.shape g) g1 |} in
  let sx :=
    {| GJK.c := A4.mk (GJK.SV_store_v 0) (GJK.SV_sv_store 0) GJK.SV_null
                  GJK.SV_null;
       GJK.p := A4.mk 0.5 0.5 0 0;
       GJK.rank := 2%Z |} in
  (st,
   {| EPA.status := st;
      EPA.result := sx;
      EPA.normal := g1;
      EPA.depth := 0.25;
      EPA.sv_store := v :: drop 1 (EPA.sv_store ep);
      EPA.fc_store := EPA.fc_store ep;
      EPA.nextsv := 1%Z;
      EPA.hull := EPA.hull ep;
      EPA.stock := EPA.stock ep |},
   g).

Definition scripted (gs : GJK.Status) (es : EPA.Status)
    : @Evaluators lin_alg :=
  {| GJK_evaluate := scripted_GJK gs; EPA_evaluate := scripted_EPA es |}.

(** Two unit spheres, the second moved by three (apart) or by one
    (overlapping) along the first axis, and storage holding nothing in
    particular. *)
Definition unit_sphere : Sphere := {| radius := 1 |}.
Definition at_origin : Tf := {| R := identity; T := zero |}.
Definition at_three : Tf :=
  {| R := identity; T := {| x := 3; y := 0; z := 0 |} |}.
Definition at_one : Tf :=
  {| R := identity; T := {| x := 1; y := 0; z := 0 |} |}.

Definition blank_simplex : @GJK.Simplex lin_alg :=
  {| GJK.c := A4.mk GJK.SV_null GJK.SV_null GJK.SV_null GJK.SV_null;
     GJK.p := A4.mk 0 0 0 0;
     GJK.rank := 0%Z |}.

Definition blank_GJK : @GJK.uninit lin_alg :=
  {| GJK.u_shapes := A2.mk unit_sphere unit_sphere;
     GJK.u_simplices := A2.mk blank_simplex blank_simplex;
     GJK.u_free_v := A4.mk GJK.SV_null GJK.SV_null GJK.SV_null GJK.SV_null;
     GJK.u_simplex := None;
     GJK.u_distance := 0;
     GJK.u_nfree := 0%Z;
     GJK.u_current := 0%Z;
     GJK.u_status := GJK.Valid |}.

Definition blank_face : @EPA.SimplexF lin_alg :=
  {| EPA.n := zero;
     EPA.d := 0;
     EPA.c := A3.mk GJK.SV_null GJK.SV_null GJK.SV_null;
     EPA.f := A3.mk None None None;
     EPA.l := A2.mk None None;
     EPA.e := A3.mk 0%Z 0%Z 0%Z;
     EPA.pass := 0%Z |}.

Definition blank_EPA : @EPA.uninit lin_alg :=
  {| EPA.u_status := EPA.Valid;
     EPA.u_result := blank_simplex;
     EPA.u_depth := 0;
     EPA.u_nextsv := 0%Z;
     EPA.u_face := λ _, blank_face |}.

(** Storage left behind by other code: stale pointers, counters and links. *)
Definition stale_simplex : @GJK.Simplex lin_alg :=
  {| GJK.c := A4.mk (GJK.SV_store_v 3) (GJK.SV_sv_store 7) GJK.SV_null
                (GJK.SV_store_v 9);
     GJK.p := A4.mk 0.25 0.75 2 (-1);
     GJK.rank := 4%Z |}.

Definition stale_GJK : @GJK.uninit lin_alg :=
  {| GJK.u_shapes := A2.mk {| radius := 7 |} unit_sphere;
     GJK.u_simplices := A2.mk stale_simplex blank_simplex;
     GJK.u_free_v := A4.mk (GJK.SV_store_v 1) GJK.SV_null GJK.SV_null
                       (GJK.SV_store_v 2);
     GJK.u_simplex := Some 1%Z;
     GJK.u_distance := 42;
     GJK.u_nfree := 2%Z;
     GJK.u_current := 1%Z;
     GJK.u_status := GJK.Inside |}.

Definition stale_face (i : nat) : @EPA.SimplexF lin_alg :=
  {| EPA.n := zero;
     EPA.d := 0.5;
     EPA.c := A3.mk (GJK.SV_sv_store i) GJK.SV_null GJK.SV_null;
     EPA.f := A3.mk (Some i) None (Some (i + 1)%nat);
     EPA.l := A2.mk (Some (i + 5)%nat) (Some i);
     EPA.e := A3.mk 2%Z 1%Z 0%Z;
     EPA.pass := 3%Z |}.

Definition stale_EPA : @EPA.uninit lin_alg :=
  {| EPA.u_status := EPA.AccuracyReached;
     EPA.u_result := stale_simplex;
     EPA.u_depth := 0.125;
     EPA.u_nextsv := 17%Z;
     EPA.u_face := stale_face |}.

End Double.

(** ** Chains of faces

    A list of the arena as a chain: the notions the properties of [append]
    and [remove] are proved with. *)

(** The last face of a segment, or what precedes the segment. *)
Definition last_ptr (prev : EPA.SimplexF_ptr) (fs : list nat)
    : EPA.SimplexF_ptr :=
  match last fs with Some i => Some i | None => prev end.

(** The faces [fs] are linked one to the next from [cur] up to [nxt],
    the first one pointing back at [prev]. *)
Fixpoint lseg `{LinAlg} (fcs : list EPA.SimplexF)
    (prev cur : EPA.SimplexF_ptr) (fs : list nat) (nxt : EPA.SimplexF_ptr)
    : Prop :=
  match fs with
  | [] => cur = nxt
  | i :: fs' =>
      cur = Some i ∧
      ∃ fc, fcs !! i = Some fc ∧ A2.x0 (EPA.l fc) = prev ∧
            lseg fcs (Some i) (A2.x1 (EPA.l fc)) fs' nxt
  end.

(** ** Sample arenas and one more scripted engine *)

Module Sample.

#[local] Existing Instance Double.lin_alg.

(** A face whose list links are [pv] and [nx], and nothing else of note. *)
Definition linked (pv nx : EPA.SimplexF_ptr) : EPA.SimplexF :=
  {| EPA.n := Double.zero;
     EPA.d := 0%float;
     EPA.c := A3.mk GJK.SV_null GJK.SV_null GJK.SV_null;
     EPA.f := A3.mk None None None;
     EPA.l := A2.mk pv nx;
     EPA.e := A3.mk 0 0 0;
     EPA.pass := 0 |}.

(** Four slots: slot 0 on a list of its own, slots 1 and 2 chained, slot 3
    on no list. *)
Definition arena : list EPA.SimplexF :=
  [linked None None; linked None (Some 2%nat); linked (Some 1%nat) None;
   linked None None].

Definition single : EPA.SimplexList :=
  {| EPA.root := Some 0%nat; EPA.count := 1 |}.
Definition pair : EPA.SimplexList :=
  {| EPA.root := Some 1%nat; EPA.count := 2 |}.
Definition empty : EPA.SimplexList := EPA.SimplexList_new.

(** Objects of a caller: two vectors and one real. *)
Definition objects : Objects :=
  {| vectors := [Double.zero; Double.zero]; reals := [0%float] |}.

(** A GJK engine that ends [Valid] with an empty simplex. *)
Definition empty_GJK (g : GJK.t) (shape : MinkowskiDiff) (g0 : Double.Vec)
    : GJK.Status * GJK.t :=
  (GJK.Valid,
   {| GJK.shape := shape;
      GJK.ray := g0;
      GJK.distance := 0%float;
      GJK.simplices := A2.mk Double.blank_simplex Double.blank_simplex;
      GJK.store_v := GJK.store_v g;
      GJK.free_v := GJK.free_v g;
      GJK.nfree := 4;
      GJK.current := 0;
      GJK.simplex := Some 0;
      GJK.status := GJK.Valid |}).

Definition empty_engines : Evaluators :=
  {| GJK_evaluate := empty_GJK;
     EPA_evaluate := Double.scripted_EPA EPA.Failed |}.

End Sample.

(** * Properties *)

(** ** [size_t] arithmetic *)

Lemma size_decr_incr (z : Z) : is_size_t z → size_decr (size_incr z) = z.
Proof.
  unfold is_size_t, size_decr, size_incr. intros Hz.
  rewrite Zminus_mod_idemp_l.
  replace (z + 1 - 1) with z by lia.
  apply Z.mod_small. exact Hz.
Qed.

(** ** The face arena *)

(** Reading a slot of an arena after some slots were assigned. *)
Ltac arena :=
  repeat first
    [ rewrite list_lookup_insert_eq by (rewrite ?length_insert; lia)
    | rewrite list_lookup_insert_ne by congruence
    | progress simpl ].

Section Arena.
Context `{LA : LinAlg}.

Lemma assign_inv (fcs fcs' : list EPA.SimplexF) ptr upd :
  EPA.assign fcs ptr upd = Some fcs' →
  ∃ i fc fc', ptr = Some i ∧ fcs !! i = Some fc ∧ upd fc = Some fc' ∧
              fcs' = <[i := fc']> fcs.
Proof.
  unfold EPA.assign. intros Hs.
  destruct ptr as [i|]; [|done]. cbn in Hs.
  destruct (fcs !! i) as [fc|] eqn:Hi; [|done]. cbn in Hs.
  destruct (upd fc) as [fc'|] eqn:Hu; [|done]. cbn in Hs.
  exists i, fc, fc'. by simplify_eq.
Qed.

Lemma assign_length (fcs fcs' : list EPA.SimplexF) ptr upd :
  EPA.assign fcs ptr upd = Some fcs' → length fcs' = length fcs.
Proof.
  intros (i & fc & fc' & _ & _ & _ & ->)%assign_inv. apply length_insert.
Qed.

Lemma append_length (fcs : list EPA.SimplexF) L face fcs' L' :
  EPA.append fcs L face = Some (fcs', L') → length fcs' = length fcs.
Proof.
  unfold EPA.append. intros Hs.
  apply bind_Some in Hs as (fcs1 & H1 & Hs).
  apply bind_Some in Hs as (fcs2 & H2 & Hs).
  apply bind_Some in Hs as (fcs3 & H3 & Hs).
  simplify_eq. apply assign_length in H1, H2.
  destruct (EPA.root L).
  - apply assign_length in H3. congruence.
  - simplify_eq. congruence.
Qed.

Lemma append_list (fcs : list EPA.SimplexF) L face fcs' L' :
  EPA.append fcs L face = Some (fcs', L') →
  EPA.root L' = face ∧ EPA.count L' = size_incr (EPA.count L).
Proof.
  unfold EPA.append. intros Hs.
  apply bind_Some in Hs as (fcs1 & H1 & Hs).
  apply bind_Some in Hs as (fcs2 & H2 & Hs).
  apply bind_Some in Hs as (fcs3 & H3 & Hs).
  by simplify_eq.
Qed.

Lemma remove_length (fcs : list EPA.SimplexF) L face fcs' L' :
  EPA.remove fcs L face = Some (fcs', L') → length fcs' = length fcs.
Proof.
  unfold EPA.remove. intros Hs.
  apply bind_Some in Hs as (fc & _ & Hs).
  apply bind_Some in Hs as (nx & _ & Hs).
  apply bind_Some in Hs as (fcs1 & H1 & Hs).
  apply bind_Some in Hs as (fc1 & _ & Hs).
  apply bind_Some in Hs as (pv1 & _ & Hs).
  apply bind_Some in Hs as (fcs2 & H2 & Hs).
  apply bind_Some in Hs as (root' & _ & Hs).
  simplify_eq.
  assert (length fcs1 = length fcs) as <-.
  { destruct nx; [|by simplify_eq].
    apply bind_Some in H1 as (? & _ & H1).
    apply bind_Some in H1 as (? & _ & H1).
    by apply assign_length in H1. }
  destruct pv1; [|by simplify_eq].
  apply bind_Some in H2 as (? & _ & H2).
  apply bind_Some in H2 as (? & _ & H2).
  by apply assign_length in H2.
Qed.

Lemma bind_length (fcs : list EPA.SimplexF) fa ea fb eb fcs' :
  EPA.bind fcs fa ea fb eb = Some fcs' → length fcs' = length fcs.
Proof.
  unfold EPA.bind. intros Hs.
  apply bind_Some in Hs as (fcs1 & H1 & Hs).
  apply bind_Some in Hs as (fcs2 & H2 & Hs).
  apply bind_Some in Hs as (fcs3 & H3 & Hs).
  apply assign_length in H1, H2, H3, Hs. congruence.
Qed.

Lemma walk_head (fuel : nat) (fcs : list EPA.SimplexF) prev (r : nat) fs :
  walk fuel fcs prev (Some r) = Some fs →
  ∃ rc fs', fcs !! r = Some rc ∧ A2.x0 (EPA.l rc) = prev ∧ fs = r :: fs'.
Proof.
  destruct fuel as [|fuel]; [done|]. cbn. intros Hw.
  apply bind_Some in Hw as (rc & Hr & Hw).
  destruct (decide (A2.x0 (EPA.l rc) = prev)) as [Hp|]; [|done].
  apply fmap_Some in Hw as (fs' & _ & ->). by exists rc, fs'.
Qed.

(** The loop of [initialize], run [n] times from index [i]: the arena keeps
    its size, the list counts [n] more faces (modulo the width of [size_t])
    and its root is the slot appended last. *)
Lemma initialize_loop (n : nat) :
  ∀ (i : Z) (fcs : list EPA.SimplexF) L fcs' L',
    for_range n i EPA.initialize_step (fcs, L) = Some (fcs', L') →
    length fcs' = length fcs ∧
    (n ≠ O →
     EPA.count L' = (EPA.count L + Z.of_nat n) mod size_modulus ∧
     EPA.root L' =
       Some (Z.to_nat (EPA_MAX_FACES - (i + Z.of_nat n - 1) - 1))).
Proof.
  induction n as [|n IH]; intros i fcs L fcs' L' Hs.
  - cbn in Hs. simplify_eq. split; [done|]. by intros [].
  - cbn [for_range] in Hs.
    apply bind_Some in Hs as ([fcs1 L1] & H1 & Hs).
    unfold EPA.initialize_step in H1. cbn [fst snd] in H1.
    pose proof (append_length _ _ _ _ _ H1) as Hlen.
    apply append_list in H1 as [Hroot Hcount].
    destruct n as [|n].
    + cbn in Hs. simplify_eq. split; [done|]. intros _. split.
      * rewrite Hcount. unfold size_incr. f_equal.
      * rewrite Hroot. do 2 f_equal. lia.
    + apply IH in Hs as [Hlen' Hrest].
      destruct Hrest as [Hc Hr]; [done|].
      split; [congruence|]. intros _. split.
      * rewrite Hc, Hcount. unfold size_incr.
        rewrite Zplus_mod_idemp_l. f_equal. lia.
      * rewrite Hr. do 2 f_equal. lia.
Qed.

Lemma initialize_inv (ep ep' : EPA.t) :
  EPA.initialize ep = Some ep' →
  length (EPA.fc_store ep') = length (EPA.fc_store ep) ∧
  EPA.sv_store ep' = EPA.sv_store ep ∧
  EPA.count (EPA.stock ep') =
    (EPA.count (EPA.stock ep) + EPA_MAX_FACES) mod size_modulus ∧
  EPA.root (EPA.stock ep') = Some O ∧
  EPA.hull ep' = EPA.hull ep.
Proof.
  unfold EPA.initialize. intros Hs.
  apply bind_Some in Hs as ([fcs' L'] & Hloop & Hs). simplify_eq. cbn.
  apply initialize_loop in Hloop as [Hlen [Hc Hr]]; [|done].
  repeat split; done.
Qed.

(** [append] and [initialize] stay clear of undefined behaviour on an arena
    of [EPA_MAX_FACES] slots whose list has its root in the arena. *)
Lemma append_defined (fcs : list EPA.SimplexF) L (f : nat) :
  (f < length fcs)%nat → in_arena fcs (EPA.root L) →
  ∃ fcs' L', EPA.append fcs L (Some f) = Some (fcs', L').
Proof.
  intros Hf Hroot.
  destruct (lookup_lt_is_Some_2 fcs f Hf) as [x Hx].
  unfold EPA.append, EPA.assign. simpl. rewrite Hx. arena.
  destruct (EPA.root L) as [r|] eqn:Hr; [|by eauto].
  specialize (Hroot r eq_refl).
  destruct (decide (r = f)) as [->|Hne]; arena; [by eauto|].
  destruct (lookup_lt_is_Some_2 fcs r Hroot) as [y Hy].
  rewrite Hy. simpl. by eauto.
Qed.

Lemma initialize_loop_defined (n : nat) :
  ∀ (i : Z) (fcs : list EPA.SimplexF) L,
    0 ≤ i → i + Z.of_nat n ≤ EPA_MAX_FACES →
    Z.of_nat (length fcs) = EPA_MAX_FACES → in_arena fcs (EPA.root L) →
    is_Some (for_range n i EPA.initialize_step (fcs, L)).
Proof.
  induction n as [|n IH]; intros i fcs L Hi Hn Hlen Hroot; [by eexists|].
  change (is_Some (EPA.append fcs L (Some (Z.to_nat (EPA_MAX_FACES - i - 1)))
                   ≫= for_range n (i + 1) EPA.initialize_step)).
  destruct (append_defined fcs L (Z.to_nat (EPA_MAX_FACES - i - 1)))
    as (fcs' & L' & Happ); [lia|done|].
  rewrite Happ. cbn [mbind option_bind].
  pose proof (append_length _ _ _ _ _ Happ) as Hlen'.
  apply append_list in Happ as [Hr _].
  apply IH; [lia|lia|lia|].
  intros r. rewrite Hr. intros [= <-]. lia.
Qed.

Lemma initialize_defined (ep : EPA.t) :
  Z.of_nat (length (EPA.fc_store ep)) = EPA_MAX_FACES →
  in_arena (EPA.fc_store ep) (EPA.root (EPA.stock ep)) →
  is_Some (EPA.initialize ep).
Proof.
  intros Hlen Hroot. unfold EPA.initialize.
  destruct (initialize_loop_defined (Z.to_nat EPA_MAX_FACES) 0
              (EPA.fc_store ep) (EPA.stock ep)) as [s Hs];
    [lia|reflexivity|exact Hlen|exact Hroot|].
  rewrite Hs. by eexists.
Qed.

(** A chain depends on the faces it visits only. *)
Lemma walk_ext (fuel : nat) (fcs fcs' : list EPA.SimplexF) :
  ∀ prev cur fs,
    walk fuel fcs prev cur = Some fs →
    (∀ i, i ∈ fs → fcs' !! i = fcs !! i) →
    walk fuel fcs' prev cur = Some fs.
Proof.
  induction fuel as [|fuel IH]; intros prev [i|] fs Hw Hagree;
    try done.
  apply walk_head in Hw as Hhead. destruct Hhead as (fc & fs' & Hi & Hp & ->).
  cbn [walk] in *. rewrite Hagree by left.
  rewrite Hi in *. cbn [mbind option_bind] in *.
  rewrite decide_True in * by done.
  apply fmap_Some in Hw as (fs'' & Hw & [= ->]).
  erewrite IH; [reflexivity|exact Hw|].
  intros j Hj. apply Hagree. by right.
Qed.

(** [append] puts the face in front of the chain. *)
Lemma append_walk (fcs : list EPA.SimplexF) L (f k : nat) fs fcs' L' :
  walk k fcs None (EPA.root L) = Some fs → NoDup fs → f ∉ fs →
  EPA.append fcs L (Some f) = Some (fcs', L') →
  walk (S k) fcs' None (Some f) = Some (f :: fs).
Proof.
  intros Hw Hnd Hf Happ. unfold EPA.append in Happ.
  apply bind_Some in Happ as (fcs1 & H1 & Happ).
  apply bind_Some in Happ as (fcs2 & H2 & Happ).
  apply bind_Some in Happ as (fcs3 & H3 & Happ).
  injection Happ as <- <-.
  apply assign_inv in H1 as (? & x & x1 & [= <-] & Hx & Hx1 & ->).
  apply assign_inv in H2 as (? & y & y1 & [= <-] & Hy & Hy1 & ->).
  pose proof (lookup_lt_Some _ _ _ Hx) as Hlt.
  rewrite list_lookup_insert_eq in Hy by done. injection Hy as <-.
  unfold EPA.with_l in *. cbn in Hx1, Hy1.
  injection Hx1 as <-. cbn in Hy1. injection Hy1 as <-.
  destruct (EPA.root L) as [r|] eqn:Hr.
  - apply walk_head in Hw as Hhead.
    destruct Hhead as (rc & fs' & Hrc & Hp & ->).
    assert (r ≠ f) as Hne by (intros ->; apply Hf; left).
    apply NoDup_cons in Hnd as [Hr' Hnd].
    apply assign_inv in H3 as (? & z & z1 & [= <-] & Hz & Hz1 & ->).
    rewrite !list_lookup_insert_ne in Hz by done.
    rewrite Hrc in Hz. injection Hz as <-.
    cbn in Hz1. injection Hz1 as <-.
    pose proof (lookup_lt_Some _ _ _ Hrc) as Hltr.
    destruct k as [|k]; [done|].
    cbn [walk] in Hw |- *. rewrite Hrc in Hw. cbn in Hw.
    rewrite decide_True in Hw by done.
    apply fmap_Some in Hw as (fs'' & Hw & [= ->]).
    arena. rewrite ?decide_True by done. arena.
    rewrite ?decide_True by done. cbn.
    erewrite walk_ext; [reflexivity|exact Hw|].
    intros i Hi.
    assert (i ≠ r) by (by intros ->).
    assert (i ≠ f) by (intros ->; apply Hf; by right).
    by arena.
  - injection H3 as <-. destruct fs; [|by destruct k].
    cbn [walk]. arena. rewrite ?decide_True by done. by destruct k.
Qed.

(** The loop of [initialize], [j] turns in: the slots [128-j .. 127] are
    chained in this order, and [n] more turns chain [n] more in front. *)
Lemma initialize_loop_chain (n : nat) :
  ∀ (j : nat) (fcs : list EPA.SimplexF) L fcs' L',
    (j + n ≤ 128)%nat →
    walk j fcs None (EPA.root L) = Some (seq (128 - j) j) →
    for_range n (Z.of_nat j) EPA.initialize_step (fcs, L) = Some (fcs', L') →
    walk (j + n) fcs' None (EPA.root L') = Some (seq (128 - (j + n)) (j + n)).
Proof.
  induction n as [|n IH]; intros j fcs L fcs' L' Hj Hw Hs.
  - injection Hs as <- <-. by rewrite Nat.add_0_r.
  - change (EPA.append fcs L (Some (Z.to_nat (EPA_MAX_FACES - Z.of_nat j - 1)))
            ≫= for_range n (Z.of_nat j + 1) EPA.initialize_step
            = Some (fcs', L')) in Hs.
    apply bind_Some in Hs as ([fcs1 L1] & Happ & Hs).
    replace (Z.to_nat (EPA_MAX_FACES - Z.of_nat j - 1)) with (127 - j)%nat
      in Happ by (unfold EPA_MAX_FACES; lia).
    replace (Z.of_nat j + 1) with (Z.of_nat (S j)) in Hs by lia.
    eapply append_walk in Hw as Hw1; [|apply NoDup_seq| |exact Happ].
    + apply append_list in Happ as [Hroot _].
      replace (j + S n)%nat with (S j + n)%nat by lia.
      apply (IH (S j) fcs1 L1); [lia| |exact Hs].
      rewrite Hroot, Hw1.
      replace (128 - j)%nat with (S (127 - j)) by lia.
      replace (128 - S j)%nat with (127 - j)%nat by lia. reflexivity.
    + rewrite elem_of_seq. lia.
Qed.

(** What [initialize] assigns, and the chain it builds from an empty
    [stock]. *)
Lemma initialize_fields (ep ep' : EPA.t) :
  EPA.initialize ep = Some ep' →
  EPA.status ep' = EPA.Failed ∧
  EPA.normal ep' =
    Vec3f_xyz (real_of_int 0) (real_of_int 0) (real_of_int 0) ∧
  EPA.depth ep' = real_of_int 0 ∧
  EPA.nextsv ep' = 0 ∧
  EPA.result ep' = EPA.result ep.
Proof.
  unfold EPA.initialize. intros Hs.
  apply bind_Some in Hs as (s & _ & Hs). by injection Hs as <-.
Qed.

Lemma initialize_chain (ep ep' : EPA.t) :
  EPA.stock ep = EPA.SimplexList_new →
  length (EPA.fc_store ep) = 128%nat →
  EPA.initialize ep = Some ep' →
  faces_of (EPA.fc_store ep') (EPA.stock ep') = Some (seq 0 128).
Proof.
  intros Hst Hlen Hi.
  pose proof (initialize_inv _ _ Hi) as (Hlen' & _).
  unfold EPA.initialize in Hi.
  apply bind_Some in Hi as ([fcs' L'] & Hloop & Hi). injection Hi as <-.
  cbn [EPA.fc_store EPA.stock fst snd] in *.
  unfold faces_of. rewrite Hlen', Hlen.
  apply (initialize_loop_chain 128 0 (EPA.fc_store ep) (EPA.stock ep));
    [lia| |exact Hloop].
  by rewrite Hst.
Qed.

(** The engine a constructor call yields, whatever its storage held. *)
Lemma construct_fresh (u : EPA.uninit) :
  ∃ ep, EPA.construct u = Some ep ∧
    EPA.stock ep = {| EPA.root := Some O; EPA.count := 128 |} ∧
    faces_of (EPA.fc_store ep) (EPA.stock ep) = Some (seq 0 128) ∧
    length (EPA.fc_store ep) = 128%nat ∧
    length (EPA.sv_store ep) = 64%nat ∧
    EPA.hull ep = EPA.SimplexList_new ∧
    EPA.nextsv ep = 0 ∧
    EPA.depth ep = real_of_int 0 ∧
    EPA.normal ep =
      Vec3f_xyz (real_of_int 0) (real_of_int 0) (real_of_int 0) ∧
    EPA.status ep = EPA.Failed.
Proof.
  unfold EPA.construct.
  match goal with |- context [EPA.initialize ?e] => set (ep0 := e) end.
  assert (length (EPA.fc_store ep0) = 128%nat) as Hlen0.
  { unfold ep0. cbn [EPA.fc_store]. by rewrite length_fmap, length_seq. }
  destruct (initialize_defined ep0) as [ep Hi].
  { by rewrite Hlen0. }
  { intros r. unfold ep0. cbn [EPA.stock]. by intros [=]. }
  exists ep. split; [exact Hi|].
  pose proof (initialize_inv _ _ Hi) as (Hlen & Hsv & Hc & Hr & Hh).
  pose proof (initialize_fields _ _ Hi) as (Hst & Hnm & Hd & Hn & _).
  pose proof (initialize_chain ep0 ep eq_refl Hlen0 Hi) as Hfs.
  split; [|split; [exact Hfs|]].
  - destruct (EPA.stock ep) as [r c]. cbn in Hc, Hr. by rewrite Hc, Hr.
  - split; [by rewrite Hlen|]. split.
    { rewrite Hsv. unfold ep0. cbn [EPA.sv_store]. by rewrite length_replicate. }
    split; [by rewrite Hh|]. auto.
Qed.

(** C6: after [bind(fa, ea, fb, eb)] on two faces of the arena and two edge
    indices below 3, face [fa] records [fb] as its neighbour across edge [ea],
    under edge [eb], and face [fb] records [fa] across [eb], under [ea];
    this holds also when the two faces, or the two edges, coincide. *)
Theorem bind_symmetric (fcs : list EPA.SimplexF) (fa fb : nat) (ea eb : Z) :
  (fa < length fcs)%nat → (fb < length fcs)%nat → 0 ≤ ea < 3 → 0 ≤ eb < 3 →
  ∃ fcs', EPA.bind fcs (Some fa) ea (Some fb) eb = Some fcs' ∧
          neighbour fcs' (Some fa) ea = Some (Some fb, eb) ∧
          neighbour fcs' (Some fb) eb = Some (Some fa, ea).
Proof.
  intros Hfa Hfb Hea Heb.
  destruct (lookup_lt_is_Some_2 fcs fa Hfa) as [xa Ha].
  destruct (lookup_lt_is_Some_2 fcs fb Hfb) as [xb Hb].
  assert (ea = 0 ∨ ea = 1 ∨ ea = 2) as Ea by lia.
  assert (eb = 0 ∨ eb = 1 ∨ eb = 2) as Eb by lia.
  unfold EPA.bind, neighbour, EPA.assign, EPA.load.
  destruct (decide (fa = fb)) as [->|Hne].
  - destruct Ea as [->|[->| ->]], Eb as [->|[->| ->]];
      cbn; rewrite ?Ha; arena; (eexists; split; [reflexivity|]); arena; done.
  - destruct Ea as [->|[->| ->]], Eb as [->|[->| ->]];
      cbn; rewrite ?Ha; arena; rewrite ?Hb; arena;
      (eexists; split; [reflexivity|]); arena; done.
Qed.

(** C10: on a well-formed list (its links form a chain [fs] from the root, its
    count is a [size_t] value) and a face [f] of the arena that is not in it,
    [append(f)] followed by [remove(f)] is defined and gives back the list's
    root and count, and every face other than [f] -- the previously first
    face among them -- is as it was before the append. *)
Theorem append_remove_round_trip (fcs : list EPA.SimplexF)
    (L : EPA.SimplexList) (f : nat) (fs : list nat) :
  faces_of fcs L = Some fs → is_size_t (EPA.count L) →
  (f < length fcs)%nat → f ∉ fs →
  ∃ fcs1 L1 fcs2,
    EPA.append fcs L (Some f) = Some (fcs1, L1) ∧
    EPA.remove fcs1 L1 (Some f) = Some (fcs2, L) ∧
    ∀ i, i ≠ f → fcs2 !! i = fcs !! i.
Proof.
  intros Hfs Hc Hf Hnot.
  destruct (lookup_lt_is_Some_2 fcs f Hf) as [x Hx].
  destruct L as [[r|] cnt]; unfold faces_of in Hfs; simpl in *.
  - apply walk_head in Hfs as (rc & fs' & Hr & Hp & ->).
    assert (r ≠ f) as Hne by (intros ->; apply Hnot; left).
    pose proof (lookup_lt_Some _ _ _ Hr) as Hlt.
    unfold EPA.append, EPA.remove, EPA.assign, EPA.load. simpl.
    rewrite Hx. arena. rewrite Hr. arena.
    do 3 eexists. split; [reflexivity|].
    arena. rewrite ?Hr. arena.
    rewrite decide_True by done. arena.
    rewrite size_decr_incr by done.
    split; [reflexivity|].
    intros i Hi. arena.
    destruct (decide (i = r)) as [->|Hir].
    + arena. rewrite Hr. f_equal.
      destruct rc as [? ? ? ? [l0 l1] ? ?]. simpl in *. by subst.
    + by arena.
  - unfold EPA.append, EPA.remove, EPA.assign, EPA.load. simpl.
    rewrite Hx. arena.
    do 3 eexists. split; [reflexivity|].
    arena. rewrite decide_True by done. arena.
    rewrite size_decr_incr by done.
    split; [reflexivity|].
    intros i Hi. by arena.
Qed.

(** C9: whatever its storage held, a constructed EPA engine has all 128 face
    slots in [stock], linked in the order 0, 1, ..., 127 with [stock.count]
    128, an empty [hull], [nextsv] 0, [depth] 0, [normal] [(0, 0, 0)] and
    status [Failed]; and [initialize], on any engine with its 128 slots and
    the root of [stock] null or among them, appends the 128 slots to the
    [stock] it finds -- adding 128 to its count modulo the width of [size_t]
    -- and leaves [hull] as it is. *)
Theorem EPA_construct_all_faces_free (u : EPA.uninit) :
  (∃ ep, EPA.construct u = Some ep ∧
     EPA.stock ep = {| EPA.root := Some O; EPA.count := 128 |} ∧
     length (EPA.fc_store ep) = 128%nat ∧
     faces_of (EPA.fc_store ep) (EPA.stock ep) = Some (seq 0 128) ∧
     EPA.hull ep = {| EPA.root := None; EPA.count := 0 |} ∧
     EPA.nextsv ep = 0 ∧
     EPA.depth ep = real_of_int 0 ∧
     EPA.normal ep =
       Vec3f_xyz (real_of_int 0) (real_of_int 0) (real_of_int 0) ∧
     EPA.status ep = EPA.Failed) ∧
  (∀ ep : EPA.t,
     length (EPA.fc_store ep) = 128%nat →
     in_arena (EPA.fc_store ep) (EPA.root (EPA.stock ep)) →
     ∃ ep', EPA.initialize ep = Some ep' ∧
       EPA.count (EPA.stock ep') =
         (EPA.count (EPA.stock ep) + 128) mod size_modulus ∧
       EPA.root (EPA.stock ep') = Some O ∧
       EPA.hull ep' = EPA.hull ep).
Proof.
  split.
  - destruct (construct_fresh u)
      as (ep & Hc & Hst & Hfs & Hlen & _ & Hh & Hn & Hd & Hnm & Hs).
    exists ep.
    split; [exact Hc|]. split; [exact Hst|]. split; [exact Hlen|].
    split; [exact Hfs|]. split; [exact Hh|]. auto.
  - intros ep Hlen Hroot.
    destruct (initialize_defined ep) as [ep' Hi]; [by rewrite Hlen|done|].
    exists ep'. split; [exact Hi|].
    apply initialize_inv in Hi as (_ & _ & Hc & Hr & Hh). auto.
Qed.

(** C5: the iteration bounds are 128 (GJK) and 255 (EPA), both tolerances are
    the literal [0.000001], that is 10^-6, and the EPA arenas have 128 face
    slots and 64 vertex slots: a constructed engine has exactly that many,
    and [initialize], [append], [remove] and [bind] leave the number of slots
    as it is. *)
Theorem compile_time_budgets :
  GJK_MAX_ITERATIONS = 128 ∧
  GJK_EPS = real_of_double GJK_EPS_literal ∧
  (GJK_EPS_literal == 10 ^ (-6))%Q ∧
  EPA_MAX_ITERATIONS = 255 ∧
  EPA_EPS = real_of_double EPA_EPS_literal ∧
  (EPA_EPS_literal == 10 ^ (-6))%Q ∧
  EPA_MAX_FACES = 128 ∧
  EPA_MAX_VERTICES = 64 ∧
  (∀ u : EPA.uninit, ∃ ep,
     EPA.construct u = Some ep ∧
     Z.of_nat (length (EPA.fc_store ep)) = EPA_MAX_FACES ∧
     Z.of_nat (length (EPA.sv_store ep)) = EPA_MAX_VERTICES) ∧
  (∀ ep ep' : EPA.t,
     EPA.initialize ep = Some ep' →
     length (EPA.fc_store ep') = length (EPA.fc_store ep) ∧
     length (EPA.sv_store ep') = length (EPA.sv_store ep)) ∧
  (∀ (fcs fcs' : list EPA.SimplexF) L L' face,
     EPA.append fcs L face = Some (fcs', L') ∨
     EPA.remove fcs L face = Some (fcs', L') →
     length fcs' = length fcs) ∧
  (∀ (fcs fcs' : list EPA.SimplexF) fa ea fb eb,
     EPA.bind fcs fa ea fb eb = Some fcs' → length fcs' = length fcs).
Proof.
  repeat split; try reflexivity.
  - intros u.
    destruct (construct_fresh u) as (ep & Hc & _ & _ & Hf & Hv & _).
    exists ep. rewrite Hf, Hv. split; [exact Hc|]. split; reflexivity.
  - by apply initialize_inv in H as (? & _).
  - by apply initialize_inv in H as (_ & -> & _).
  - intros fcs fcs' L L' face [Ha|Hr].
    + by eapply append_length.
    + by eapply remove_length.
  - intros fcs fcs' fa ea fb eb Hb. by eapply bind_length.
Qed.

End Arena.

(** ** The queries *)

Section Queries.
Context {LA : LinAlg} {EV : Evaluators}.

(** One turn of either loop reads one vertex of the simplex and adds its
    support point, weighted. *)
Lemma distance_step_vertex (shape : MinkowskiDiff) (gjk : GJK.t)
    (sx : GJK.Simplex) (i : Z) (acc : Vec3f * Vec3f) :
  GJK.Simplex_at gjk (GJK.getSimplex gjk) = Some sx →
  distance_step shape gjk i acc =
  x ← Simplex_vertex (GJK.store_v gjk) [] sx i;
  Some (vec_add acc.1 (vec_scale (support_at shape x.1 0) x.2),
        vec_add acc.2 (vec_scale (support_at shape (vec_neg x.1) 1) x.2)).
Proof.
  intros Hsx. unfold distance_step, Simplex_vertex. rewrite Hsx.
  cbn [mbind option_bind].
  destruct (A4.get (GJK.p sx) i) as [p|],
           (A4.get (GJK.c sx) i) as [ci|]; cbn [mbind option_bind];
    try reflexivity.
  - destruct (GJK.SimplexV_at _ _ ci); reflexivity.
  - destruct (GJK.SimplexV_at _ _ ci); reflexivity.
Qed.

Lemma contact_step_vertex (shape : MinkowskiDiff) (gjk : GJK.t)
    (epa : EPA.t) (i : Z) (acc : Vec3f) :
  contact_step shape gjk epa i acc =
  x ← Simplex_vertex (GJK.store_v gjk) (EPA.sv_store epa) (EPA.result epa) i;
  Some (vec_add acc (vec_scale (support_at shape x.1 0) x.2)).
Proof.
  unfold contact_step, Simplex_vertex.
  destruct (A4.get (GJK.c (EPA.result epa)) i) as [ci|];
    cbn [mbind option_bind]; [|reflexivity].
  destruct (GJK.SimplexV_at _ _ ci); cbn [mbind option_bind]; [|reflexivity].
  destruct (A4.get (GJK.p (EPA.result epa)) i); reflexivity.
Qed.

(** The loop of [shapeDistance2] from index [k] on is the two weighted sums
    over the vertices [k .. k+n-1] of the terminal simplex, and is undefined
    exactly when one of these vertices cannot be read. *)
Lemma distance_loop (shape : MinkowskiDiff) (gjk : GJK.t) (sx : GJK.Simplex)
    (n : nat) :
  GJK.Simplex_at gjk (GJK.getSimplex gjk) = Some sx →
  ∀ (k : nat) (acc : Vec3f * Vec3f),
    for_range n (Z.of_nat k) (distance_step shape gjk) acc =
    vs ← mapM (Simplex_vertex (GJK.store_v gjk) [] sx)
              (Z.of_nat <$> seq k n);
    Some (accumulate acc.1 ((λ x, (support_at shape x.1 0, x.2)) <$> vs),
          accumulate acc.2
            ((λ x, (support_at shape (vec_neg x.1) 1, x.2)) <$> vs)).
Proof.
  intros Hsx. induction n as [|n IH]; intros k acc.
  - by destruct acc.
  - cbn [for_range seq fmap list_fmap mapM].
    rewrite (distance_step_vertex _ _ _ _ _ Hsx).
    destruct (Simplex_vertex _ _ sx (Z.of_nat k)) as [x|];
      cbn [mbind option_bind]; [|reflexivity].
    replace (Z.of_nat k + 1) with (Z.of_nat (S k)) by lia.
    rewrite IH.
    destruct (mapM _ _) as [vs|]; reflexivity.
Qed.

(** The loop of [shapeIntersect2], likewise. *)
Lemma contact_loop (shape : MinkowskiDiff) (gjk : GJK.t) (epa : EPA.t)
    (n : nat) :
  ∀ (k : nat) (acc : Vec3f),
    for_range n (Z.of_nat k) (contact_step shape gjk epa) acc =
    vs ← mapM (Simplex_vertex (GJK.store_v gjk) (EPA.sv_store epa)
                 (EPA.result epa))
              (Z.of_nat <$> seq k n);
    Some (accumulate acc ((λ x, (support_at shape x.1 0, x.2)) <$> vs)).
Proof.
  induction n as [|n IH]; intros k acc.
  - reflexivity.
  - cbn [for_range seq fmap list_fmap mapM].
    rewrite contact_step_vertex.
    destruct (Simplex_vertex _ _ _ (Z.of_nat k)) as [x|];
      cbn [mbind option_bind]; [|reflexivity].
    replace (Z.of_nat k + 1) with (Z.of_nat (S k)) by lia.
    rewrite IH.
    destruct (mapM _ _) as [vs|]; reflexivity.
Qed.

(** [shapeDistance2] in terms of what GJK returned. *)
Lemma shapeDistance2_run (u : GJK.uninit) s1 tf1 s2 tf2 :
  shapeDistance2 u s1 tf1 s2 tf2 =
  let shape := query_shape s1 tf1 s2 tf2 in
  let run := GJK_evaluate (GJK.construct u) shape (vec_neg guess) in
  match run.1 with
  | GJK.Valid =>
      vs ← GJK_vertices run.2;
      Some (true, vec_length (vec_sub (witness0 shape vs) (witness1 shape vs)))
  | _ => Some (false, real_of_int (-1))
  end.
Proof.
  unfold shapeDistance2. cbn zeta.
  destruct (GJK_evaluate _ _ _) as [st gjk]. cbn [fst snd].
  destruct st; try reflexivity.
  unfold GJK_vertices.
  destruct (GJK.Simplex_at gjk (GJK.getSimplex gjk)) as [sx|] eqn:Hsx;
    [|reflexivity].
  cbn [mbind option_bind].
  rewrite (distance_loop _ _ _ _ Hsx O). unfold Simplex_vertices.
  destruct (mapM _ _) as [vs|]; reflexivity.
Qed.

(** [shapeIntersect2] in terms of what the two engines returned. *)
Lemma shapeIntersect2_run (ug : GJK.uninit) (ue : EPA.uninit) s1 tf1 s2 tf2
    cp pd nm :
  shapeIntersect2 ug ue s1 tf1 s2 tf2 cp pd nm =
  let shape := query_shape s1 tf1 s2 tf2 in
  let run := GJK_evaluate (GJK.construct ug) shape (vec_neg guess) in
  let unchanged :=
    {| overlap := false; contact_points := cp; penetration_depth := pd;
       normal := nm |} in
  match run.1 with
  | GJK.Inside =>
      epa ← EPA.construct ue;
      let run' := EPA_evaluate epa run.2 (vec_neg guess) in
      if decide (run'.1.1 ≠ EPA.Failed) then
        vs ← EPA_vertices run'.2 run'.1.2;
        Some {| overlap := true;
                contact_points :=
                  write_out cp
                    (transform tf1
                       (vec_sub (witness0 shape vs)
                          (vec_scale (EPA.normal run'.1.2)
                             (real_mul (EPA.depth run'.1.2)
                                (real_of_double 0.5)))));
                penetration_depth :=
                  write_out pd (real_neg (EPA.depth run'.1.2));
                normal := write_out nm (vec_neg (EPA.normal run'.1.2)) |}
      else Some unchanged
  | _ => Some unchanged
  end.
Proof.
  unfold shapeIntersect2. cbn zeta.
  destruct (GJK_evaluate _ _ _) as [st gjk]. cbn [fst snd].
  destruct st; try reflexivity.
  destruct (EPA.construct ue) as [epa|]; [|reflexivity].
  cbn [mbind option_bind].
  destruct (EPA_evaluate _ _ _) as [[st' epa'] gjk']. cbn [fst snd].
  destruct (decide (st' ≠ EPA.Failed)); [|reflexivity].
  rewrite (contact_loop _ _ _ _ O). unfold EPA_vertices, Simplex_vertices.
  destruct (mapM _ _) as [vs|]; reflexivity.
Qed.


(** C3: [support(d)] is [support0(d) - support1(-d)], where [support0(d)] is
    the support point of shape 0 along [d] and [support1(d)] is the support
    point of shape 1 along [toshape1 * d], transformed by [toshape0]; the
    two-argument [support] selects between the two. *)
Theorem support_minkowski_difference (M : MinkowskiDiff) (d : Vec3f) :
  support M d = vec_sub (support0 M d) (support1 M (vec_neg d)) ∧
  support0 M d = getSupport (A2.x0 (shapes M)) d ∧
  support1 M d =
    transform (toshape0 M)
      (getSupport (A2.x1 (shapes M)) (mat_mul_vec (toshape1 M) d)) ∧
  support M d =
    vec_sub (getSupport (A2.x0 (shapes M)) d)
      (transform (toshape0 M)
         (getSupport (A2.x1 (shapes M))
            (mat_mul_vec (toshape1 M) (vec_neg d)))) ∧
  support M d = vec_sub (support_at M d 0) (support_at M (vec_neg d) 1).
Proof. repeat split. Qed.

(** C1, as the code has it: [shapeIntersect2] returns false, leaving its
    outputs alone, whenever GJK does not end [Inside] and whenever EPA ends
    with the status [Failed]; a defined call returns true exactly when GJK
    ends [Inside] and EPA ends with any status other than [Failed].  The EPA
    engine it constructs always exists. *)
Theorem shapeIntersect2_overlap_iff (ug : GJK.uninit) (ue : EPA.uninit)
    s1 tf1 s2 tf2 cp pd nm :
  let shape := query_shape s1 tf1 s2 tf2 in
  let run := GJK_evaluate (GJK.construct ug) shape (vec_neg guess) in
  let unchanged :=
    {| overlap := false; contact_points := cp; penetration_depth := pd;
       normal := nm |} in
  ∃ epa, EPA.construct ue = Some epa ∧
    let run' := EPA_evaluate epa run.2 (vec_neg guess) in
    (run.1 ≠ GJK.Inside →
     shapeIntersect2 ug ue s1 tf1 s2 tf2 cp pd nm = Some unchanged) ∧
    (run.1 = GJK.Inside → run'.1.1 = EPA.Failed →
     shapeIntersect2 ug ue s1 tf1 s2 tf2 cp pd nm = Some unchanged) ∧
    (∀ r, shapeIntersect2 ug ue s1 tf1 s2 tf2 cp pd nm = Some r →
          (overlap r = true ↔ run.1 = GJK.Inside ∧ run'.1.1 ≠ EPA.Failed)).
Proof.
  intros shape run unchanged.
  destruct (construct_fresh ue) as (epa & Hepa & _).
  exists epa. split; [exact Hepa|]. intros run'.
  rewrite shapeIntersect2_run. cbn zeta. fold shape run unchanged.
  rewrite Hepa. clear Hepa. cbn [mbind option_bind]. fold run'.
  split; [|split].
  - intros Hst. destruct run.1; [reflexivity| |reflexivity].
    exfalso. by apply Hst.
  - intros -> Hst'. rewrite decide_False; [reflexivity|].
    intros Hne. by apply Hne.
  - intros r Hr. destruct run.1.
    + injection Hr as <-. cbn. split; [discriminate|]. by intros [? _].
    + destruct (decide (run'.1.1 ≠ EPA.Failed)) as [Hne|He].
      * apply bind_Some in Hr as (vs & _ & Hr). injection Hr as <-. cbn.
        split; [by split|reflexivity].
      * injection Hr as <-. cbn. split; [discriminate|].
        intros [_ Hne]. by destruct He.
    + injection Hr as <-. cbn. split; [discriminate|]. by intros [? _].
Qed.

(** C2: [shapeDistance2] returns true exactly when GJK ends [Valid], and
    [*distance] is then the length of [w0 - w1], [w0] being the sum of
    [support(d_i, 0) * p_i] and [w1] the sum of [support(-d_i, 1) * p_i] over
    the vertices of the terminal simplex; when GJK ends [Inside] or [Failed]
    it returns false (and [*distance] is -1). *)
Theorem shapeDistance2_Valid_iff (ug : GJK.uninit) s1 tf1 s2 tf2 :
  let shape := query_shape s1 tf1 s2 tf2 in
  let run := GJK_evaluate (GJK.construct ug) shape (vec_neg guess) in
  (run.1 = GJK.Valid →
   ∀ vs, GJK_vertices run.2 = Some vs →
     shapeDistance2 ug s1 tf1 s2 tf2 =
     Some (true, vec_length (vec_sub (witness0 shape vs) (witness1 shape vs)))) ∧
  (run.1 ≠ GJK.Valid →
   shapeDistance2 ug s1 tf1 s2 tf2 = Some (false, real_of_int (-1))) ∧
  (∀ dist, shapeDistance2 ug s1 tf1 s2 tf2 = Some (true, dist) →
     run.1 = GJK.Valid ∧
     ∃ vs, GJK_vertices run.2 = Some vs ∧
           dist = vec_length (vec_sub (witness0 shape vs) (witness1 shape vs))).
Proof.
  intros shape run. rewrite shapeDistance2_run. cbn zeta. fold shape run.
  repeat split.
  - intros -> vs ->. reflexivity.
  - intros Hst. by destruct run.1.
  - by destruct run.1.
  - destruct run.1; try discriminate H.
    apply bind_Some in H as (vs & Hvs & H). exists vs. by simplify_eq.
Qed.

(** C4: when [shapeIntersect2] returns true, what it leaves behind each
    non-null pointer is: [-epa.depth] for the penetration depth,
    [-epa.normal] for the normal, and for the contact point [tf1] applied to
    [w0 - epa.normal * (epa.depth * 0.5)], [w0] being the sum of
    [support(d_i, 0) * p_i] over the vertices of EPA's result simplex; a null
    pointer stays null. *)
Theorem shapeIntersect2_outputs (ug : GJK.uninit) (ue : EPA.uninit)
    s1 tf1 s2 tf2 cp pd nm (epa0 : EPA.t) (r : Intersection) :
  let shape := query_shape s1 tf1 s2 tf2 in
  let run := GJK_evaluate (GJK.construct ug) shape (vec_neg guess) in
  let run' := EPA_evaluate epa0 run.2 (vec_neg guess) in
  let epa := run'.1.2 in
  EPA.construct ue = Some epa0 →
  shapeIntersect2 ug ue s1 tf1 s2 tf2 cp pd nm = Some r →
  overlap r = true →
  penetration_depth r = write_out pd (real_neg (EPA.depth epa)) ∧
  normal r = write_out nm (vec_neg (EPA.normal epa)) ∧
  ∃ vs, EPA_vertices run'.2 epa = Some vs ∧
    contact_points r =
      write_out cp
        (transform tf1
           (vec_sub (witness0 shape vs)
              (vec_scale (EPA.normal epa)
                 (real_mul (EPA.depth epa) (real_of_double 0.5))))).
Proof.
  intros shape run run' epa Hepa Hr Hov.
  rewrite shapeIntersect2_run in Hr. cbn zeta in Hr.
  fold shape run in Hr. rewrite Hepa in Hr. clear Hepa.
  cbn [mbind option_bind] in Hr. fold run' epa in Hr.
  destruct run.1;
    [injection Hr as <-; discriminate Hov| |injection Hr as <-; discriminate Hov].
  destruct (decide (run'.1.1 ≠ EPA.Failed));
    [|injection Hr as <-; discriminate Hov].
  apply bind_Some in Hr as (vs & Hvs & Hr). injection Hr as <-. cbn.
  split; [reflexivity|]. split; [reflexivity|]. by exists vs.
Qed.

(** C8: when [shapeDistance2] returns false, GJK ended [Inside] or [Failed]
    and the value left in [*distance] is -1. *)
Theorem shapeDistance2_false_sets_distance (ug : GJK.uninit) s1 tf1 s2 tf2
    (dist : BVH_REAL) :
  let run :=
    GJK_evaluate (GJK.construct ug) (query_shape s1 tf1 s2 tf2)
      (vec_neg guess) in
  shapeDistance2 ug s1 tf1 s2 tf2 = Some (false, dist) →
  dist = real_of_int (-1) ∧ (run.1 = GJK.Inside ∨ run.1 = GJK.Failed).
Proof.
  intros run. rewrite shapeDistance2_run. cbn zeta. fold run.
  destruct run.1; intros Hd.
  - apply bind_Some in Hd as (vs & _ & Hd). discriminate Hd.
  - simplify_eq. auto.
  - simplify_eq. auto.
Qed.

Lemma shapeDistance2_outcome (u : GJK.uninit) s1 tf1 s2 tf2 :
  shapeDistance2 u s1 tf1 s2 tf2 =
  distance_of_outcome (query_shape s1 tf1 s2 tf2)
    (GJK_outcome u (query_shape s1 tf1 s2 tf2) (vec_neg guess)).
Proof. apply shapeDistance2_run. Qed.

Lemma shapeIntersect2_outcome (ug : GJK.uninit) (ue : EPA.uninit)
    s1 tf1 s2 tf2 cp pd nm :
  shapeIntersect2 ug ue s1 tf1 s2 tf2 cp pd nm =
  intersect_of_outcome (query_shape s1 tf1 s2 tf2) tf1 cp pd nm
    (GJK_outcome ug (query_shape s1 tf1 s2 tf2) (vec_neg guess)).1
    (EPA_outcome ug ue (query_shape s1 tf1 s2 tf2) (vec_neg guess)
       (vec_neg guess)).
Proof.
  rewrite shapeIntersect2_run.
  unfold intersect_of_outcome, EPA_outcome, GJK_outcome. cbn zeta.
  cbn [fst snd].
  generalize (EPA.construct ue). intros made.
  destruct (GJK_evaluate _ _ _).1; try reflexivity.
  destruct made as [epa|]; reflexivity.
Qed.

End Queries.

(** ** The properties at work on doubles

    Each statement above with a premise, applied to the instance of the
    definitions part: IEEE doubles, unit spheres and scripted engines. *)

Module OnDoubles.

#[local] Existing Instance Double.lin_alg.

(** C6 on two faces of an arena of four: edge 1 of face 0 bound to edge 0 of
    face 2. *)
Lemma bind_symmetric_witness :
  ∃ fcs',
    EPA.bind (replicate 4 Double.blank_face) (Some 0%nat) 1 (Some 2%nat) 0
      = Some fcs' ∧
    neighbour fcs' (Some 0%nat) 1 = Some (Some 2%nat, 0) ∧
    neighbour fcs' (Some 2%nat) 0 = Some (Some 0%nat, 1).
Proof.
  apply (bind_symmetric (replicate 4 Double.blank_face) 0 2 1 0);
    simpl; lia.
Defined.

(** C10 on an arena of three whose list holds face 1 only: face 0 appended
    and removed again. *)
Lemma append_remove_round_trip_witness :
  ∃ fcs1 L1 fcs2,
    EPA.append (replicate 3 Double.blank_face)
      {| EPA.root := Some 1%nat; EPA.count := 1 |} (Some 0%nat)
      = Some (fcs1, L1) ∧
    EPA.remove fcs1 L1 (Some 0%nat)
      = Some (fcs2, {| EPA.root := Some 1%nat; EPA.count := 1 |}) ∧
    ∀ i, i ≠ 0%nat → fcs2 !! i = replicate 3 Double.blank_face !! i.
Proof.
  apply (append_remove_round_trip (replicate 3 Double.blank_face)
           {| EPA.root := Some 1%nat; EPA.count := 1 |} 0 [1%nat]).
  - reflexivity.
  - unfold is_size_t, size_modulus, size_bits. simpl. lia.
  - simpl. lia.
  - intros Hin. apply list_elem_of_singleton in Hin. lia.
Defined.

(** C9 on storage full of stale links: the constructed engine counts 128
    free faces, and initialised once more it counts 256. *)
Lemma EPA_construct_all_faces_free_witness :
  ∃ ep ep',
    EPA.construct Double.stale_EPA = Some ep ∧
    EPA.initialize ep = Some ep' ∧
    EPA.count (EPA.stock ep) = 128 ∧
    EPA.count (EPA.stock ep') = 256 ∧
    EPA.hull ep' = EPA.hull ep.
Proof.
  destruct (EPA_construct_all_faces_free Double.stale_EPA)
    as [(ep & Hc & Hst & Hlen & _) Hinit].
  destruct (Hinit ep Hlen) as (ep' & Hi & Hn' & _ & Hh).
  - intros r. rewrite Hst. simpl. intros [= <-]. rewrite Hlen. lia.
  - exists ep, ep'.
    split; [exact Hc|]. split; [exact Hi|].
    rewrite Hn', Hst. simpl. repeat split. exact Hh.
Defined.

(** C5 on an arena of four: [bind] leaves four slots. *)
Lemma compile_time_budgets_witness :
  ∃ fcs',
    EPA.bind (replicate 4 Double.blank_face) (Some 0%nat) 1 (Some 2%nat) 0
      = Some fcs' ∧
    length fcs' = 4%nat.
Proof.
  destruct (EPA.bind (replicate 4 Double.blank_face) (Some 0%nat) 1
              (Some 2%nat) 0) as [fcs'|] eqn:Hb;
    [|vm_compute in Hb; discriminate Hb].
  exists fcs'. split; [reflexivity|].
  destruct (compile_time_budgets (LA := Double.lin_alg))
    as (_ & _ & _ & _ & _ & _ & _ & _ & _ & _ & _ & Hbind).
  rewrite (Hbind _ _ _ _ _ _ Hb). reflexivity.
Defined.

(** C1 as the spec words it fails: the spheres overlap, GJK ends [Inside], EPA
    runs out of faces -- a failure mode for the spec -- and
    [shapeIntersect2] returns true, with a depth. *)
Lemma shapeIntersect2_overlap_on_OutOfFaces :
  let EV := Double.scripted GJK.Inside EPA.OutOfFaces in
  let shape :=
    query_shape Double.unit_sphere Double.at_origin
      Double.unit_sphere Double.at_one in
  let run := GJK_evaluate (GJK.construct Double.blank_GJK) shape
               (vec_neg guess) in
  run.1 = GJK.Inside ∧
  (epa ← EPA.construct Double.blank_EPA;
   Some (EPA_evaluate epa run.2 (vec_neg guess)).1.1) = Some EPA.OutOfFaces ∧
  spec_EPA_success EPA.OutOfFaces = false ∧
  (λ r, (overlap r, penetration_depth r)) <$>
    shapeIntersect2 Double.blank_GJK Double.blank_EPA
      Double.unit_sphere Double.at_origin Double.unit_sphere Double.at_one
      None (Some 0%float) None
  = Some (true, Some (-0.25)%float).
Proof. repeat split; vm_compute; reflexivity. Qed.

(** C1 as amended, where GJK ends [Valid]: no overlap, outputs untouched. *)
Lemma shapeIntersect2_overlap_iff_witness :
  @shapeIntersect2 _ (Double.scripted GJK.Valid EPA.AccuracyReached)
    Double.blank_GJK Double.blank_EPA
    Double.unit_sphere Double.at_origin Double.unit_sphere Double.at_three
    (Some Double.zero) None None
  = Some {| overlap := false; contact_points := Some Double.zero;
            penetration_depth := None; normal := None |}.
Proof.
  destruct (shapeIntersect2_overlap_iff
              (EV := Double.scripted GJK.Valid EPA.AccuracyReached)
              Double.blank_GJK Double.blank_EPA
              Double.unit_sphere Double.at_origin
              Double.unit_sphere Double.at_three
              (Some Double.zero) None None) as (epa & _ & Hvalid & _).
  apply Hvalid. vm_compute. discriminate.
Defined.

(** C4 on the overlapping spheres, EPA ending [AccuracyReached] with depth
    0.25 along [-guess]: all three outputs are written. *)
Lemma shapeIntersect2_outputs_witness :
  ∃ r,
    @shapeIntersect2 _ (Double.scripted GJK.Inside EPA.AccuracyReached)
      Double.blank_GJK Double.blank_EPA
      Double.unit_sphere Double.at_origin Double.unit_sphere Double.at_one
      (Some Double.zero) (Some 0%float) (Some Double.zero) = Some r ∧
    penetration_depth r = Some (-0.25)%float ∧
    normal r = Some {| Double.x := 1; Double.y := 0; Double.z := 0 |} ∧
    contact_points r =
      Some {| Double.x := (-0.875)%float; Double.y := 0; Double.z := 0 |}.
Proof.
  destruct (EPA.construct Double.blank_EPA) as [epa0|] eqn:Hc;
    [|vm_compute in Hc; discriminate Hc].
  destruct (@shapeIntersect2 _
              (Double.scripted GJK.Inside EPA.AccuracyReached)
              Double.blank_GJK Double.blank_EPA
              Double.unit_sphere Double.at_origin
              Double.unit_sphere Double.at_one
              (Some Double.zero) (Some 0%float) (Some Double.zero))
    as [r|] eqn:Hr; [|vm_compute in Hr; discriminate Hr].
  assert (overlap r = true) as Hov
    by (vm_compute in Hr; injection Hr as <-; reflexivity).
  destruct (shapeIntersect2_outputs
              (EV := Double.scripted GJK.Inside EPA.AccuracyReached)
              _ _ _ _ _ _ _ _ _ epa0 r Hc Hr Hov)
    as (Hpd & Hnm & vs & Hvs & Hcp).
  exists r. split; [reflexivity|]. clear Hc Hr.
  vm_compute in Hvs. injection Hvs as <-.
  rewrite Hpd, Hnm, Hcp. repeat split; vm_compute; reflexivity.
Defined.

(** C2 where GJK ends [Valid] on the spheres three apart. *)
Lemma shapeDistance2_Valid_iff_witness :
  @shapeDistance2 _ (Double.scripted GJK.Valid EPA.Failed)
    Double.blank_GJK
    Double.unit_sphere Double.at_origin Double.unit_sphere Double.at_three
  = Some (true, 5%float).
Proof.
  destruct (shapeDistance2_Valid_iff
              (EV := Double.scripted GJK.Valid EPA.Failed)
              Double.blank_GJK
              Double.unit_sphere Double.at_origin
              Double.unit_sphere Double.at_three) as (Hvalid & _ & _).
  etransitivity.
  - apply Hvalid; vm_compute; reflexivity.
  - vm_compute. reflexivity.
Defined.

(** C8 where GJK ends [Inside]. *)
Lemma shapeDistance2_false_sets_distance_witness :
  (-1)%float = Double.of_Z (-1) ∧
  ((@GJK_evaluate _ (Double.scripted GJK.Inside EPA.Failed)
      (GJK.construct Double.blank_GJK)
      (query_shape Double.unit_sphere Double.at_origin
         Double.unit_sphere Double.at_one)
      (vec_neg guess)).1 = GJK.Inside ∨
   (@GJK_evaluate _ (Double.scripted GJK.Inside EPA.Failed)
      (GJK.construct Double.blank_GJK)
      (query_shape Double.unit_sphere Double.at_origin
         Double.unit_sphere Double.at_one)
      (vec_neg guess)).1 = GJK.Failed).
Proof.
  apply (shapeDistance2_false_sets_distance
           (EV := Double.scripted GJK.Inside EPA.Failed)
           Double.blank_GJK
           Double.unit_sphere Double.at_origin
           Double.unit_sphere Double.at_one (-1)%float).
  vm_compute. reflexivity.
Defined.

End OnDoubles.

(** * More of the header

    Properties of [SimplexList], [bind], [initialize] and the two queries
    beyond the ones above. *)

(** ** Lists of faces as chains *)

Section Chains.
Context `{LA : LinAlg}.
Implicit Types (fcs : list EPA.SimplexF) (fs : list nat).

Lemma walk_lseg fuel fcs : ∀ prev cur fs,
  walk fuel fcs prev cur = Some fs →
  lseg fcs prev cur fs None ∧ (length fs ≤ fuel)%nat.
Proof.
  induction fuel as [|fuel IH]; intros prev [i|] fs Hw; cbn in Hw;
    simplify_eq; try (split; [done|cbn; lia]).
  apply bind_Some in Hw as (fc & Hi & Hw).
  destruct (decide _) as [Hp|]; [|done].
  apply fmap_Some in Hw as (fs' & Hw & ->).
  apply IH in Hw as [Hseg Hlen]. split; [|cbn; lia].
  split; [done|]. by exists fc.
Qed.

Lemma lseg_walk fcs : ∀ fs fuel prev cur,
  lseg fcs prev cur fs None → (length fs ≤ fuel)%nat →
  walk fuel fcs prev cur = Some fs.
Proof.
  induction fs as [|i fs IH]; intros fuel prev cur Hs Hlen; cbn in Hs.
  - subst. by destruct fuel.
  - destruct Hs as (-> & fc & Hi & Hp & Hs).
    destruct fuel as [|fuel]; [cbn in Hlen; lia|].
    cbn. rewrite Hi. cbn. rewrite decide_True by done.
    rewrite (IH fuel); [done|done|cbn in Hlen; lia].
Qed.

Lemma lseg_in_arena fcs : ∀ fs prev cur nxt,
  lseg fcs prev cur fs nxt → ∀ i, i ∈ fs → (i < length fcs)%nat.
Proof.
  induction fs as [|j fs IH]; intros prev cur nxt Hs i Hi.
  - by apply elem_of_nil in Hi.
  - destruct Hs as (-> & fc & Hj & Hp & Hs).
    apply elem_of_cons in Hi as [->|Hi].
    + by eapply lookup_lt_Some.
    + by eapply IH.
Qed.

Lemma lseg_app fcs : ∀ xs ys prev cur nxt,
  lseg fcs prev cur (xs ++ ys) nxt ↔
  ∃ mid, lseg fcs prev cur xs mid ∧ lseg fcs (last_ptr prev xs) mid ys nxt.
Proof.
  induction xs as [|i xs IH]; intros ys prev cur nxt; cbn [app lseg].
  - split.
    + intros Hs. by exists cur.
    + by intros (mid & -> & Hs).
  - split.
    + intros (-> & fc & Hi & Hp & Hs).
      apply IH in Hs as (mid & Hxs & Hys). exists mid. split.
      * split; [done|]. by exists fc.
      * unfold last_ptr in *. rewrite last_cons. by destruct (last xs).
    + intros (mid & (-> & fc & Hi & Hp & Hxs) & Hys).
      split; [done|]. exists fc. split; [done|]. split; [done|].
      apply IH. exists mid. split; [done|].
      unfold last_ptr in *. rewrite last_cons in Hys. by destruct (last xs).
Qed.

Lemma lseg_ext fcs fcs' : ∀ fs prev cur nxt,
  lseg fcs prev cur fs nxt →
  (∀ i, i ∈ fs → fcs' !! i = fcs !! i) →
  lseg fcs' prev cur fs nxt.
Proof.
  induction fs as [|i fs IH]; intros prev cur nxt Hs Hagree; [done|].
  destruct Hs as (-> & fc & Hi & Hp & Hs).
  split; [done|]. exists fc. rewrite Hagree by left.
  split; [done|]. split; [done|].
  apply IH; [done|]. intros j Hj. apply Hagree. by right.
Qed.

Lemma lseg_det fcs : ∀ fs1 fs2 prev prev' cur,
  lseg fcs prev cur fs1 None → lseg fcs prev' cur fs2 None → fs1 = fs2.
Proof.
  induction fs1 as [|i fs1 IH]; intros [|j fs2] prev prev' cur H1 H2;
    cbn in H1, H2; try done.
  - destruct H2 as (-> & _). done.
  - destruct H1 as (-> & _). done.
  - destruct H1 as (-> & fc & Hi & _ & H1).
    destruct H2 as ([= <-] & fc' & Hi' & _ & H2).
    rewrite Hi in Hi'. injection Hi' as <-.
    f_equal. by eapply IH.
Qed.

Lemma lseg_NoDup fcs : ∀ fs prev cur,
  lseg fcs prev cur fs None → NoDup fs.
Proof.
  induction fs as [|i fs IH]; intros prev cur Hs; [constructor|].
  pose proof Hs as (-> & fc & Hi & Hp & Hs').
  constructor; [|by eapply IH].
  intros Hin. apply list_elem_of_split in Hin as (xs & ys & ->).
  pose proof Hs' as Hs''.
  apply lseg_app in Hs'' as (mid & _ & Htail).
  pose proof Htail as (-> & fc' & Hi' & _ & Htail').
  rewrite Hi in Hi'. injection Hi' as <-.
  pose proof (lseg_det _ _ _ _ _ _ Hs' Htail') as Heq.
  apply (f_equal length) in Heq. rewrite length_app in Heq. cbn in Heq. lia.
Qed.

Lemma NoDup_bounded_length fs (n : nat) :
  NoDup fs → (∀ i, i ∈ fs → (i < n)%nat) → (length fs ≤ n)%nat.
Proof.
  intros Hnd Hlt.
  transitivity (length (seq 0 n)); [|by rewrite length_seq].
  apply submseteq_length, NoDup_submseteq; [done|].
  intros i Hi. apply elem_of_seq. specialize (Hlt i Hi). lia.
Qed.

(** A list whose links reach the null pointer visits distinct faces of the
    arena. *)
Lemma faces_of_lseg fcs (L : EPA.SimplexList) fs :
  faces_of fcs L = Some fs ↔ lseg fcs None (EPA.root L) fs None.
Proof.
  unfold faces_of. split.
  - by intros [? _]%walk_lseg.
  - intros Hs. apply lseg_walk; [done|].
    apply NoDup_bounded_length; [by eapply lseg_NoDup|by eapply lseg_in_arena].
Qed.

Lemma lseg_set_prev fcs (n : nat) nc nc' q : ∀ xs cur prev nxt,
  lseg fcs prev cur (n :: xs) nxt → n ∉ xs → fcs !! n = Some nc →
  EPA.l nc' = A2.mk q (A2.x1 (EPA.l nc)) →
  lseg (<[n := nc']> fcs) q cur (n :: xs) nxt.
Proof.
  intros xs cur prev nxt (-> & fc & Hn & _ & Hs) Hnot Hnc Hl.
  rewrite Hnc in Hn. injection Hn as <-.
  split; [done|]. exists nc'.
  rewrite list_lookup_insert_eq by (by eapply lookup_lt_Some).
  rewrite Hl. cbn. split; [done|]. split; [done|].
  eapply lseg_ext; [exact Hs|].
  intros i Hi. apply list_lookup_insert_ne. by intros ->.
Qed.

Lemma lseg_set_next fcs (p : nat) pc pc' q : ∀ xs cur prev nxt,
  lseg fcs prev cur (xs ++ [p]) nxt → p ∉ xs → fcs !! p = Some pc →
  EPA.l pc' = A2.mk (A2.x0 (EPA.l pc)) q →
  lseg (<[p := pc']> fcs) prev cur (xs ++ [p]) q.
Proof.
  induction xs as [|i xs IH]; intros cur prev nxt Hs Hnot Hpc Hl.
  - destruct Hs as (-> & fc & Hp & Hprev & _).
    rewrite Hpc in Hp. injection Hp as <-.
    split; [done|]. exists pc'.
    rewrite list_lookup_insert_eq by (by eapply lookup_lt_Some).
    rewrite Hl. cbn. done.
  - destruct Hs as (-> & fc & Hi & Hprev & Hs).
    apply not_elem_of_cons in Hnot as [Hne Hnot].
    split; [done|]. exists fc.
    rewrite list_lookup_insert_ne by done.
    split; [done|]. split; [done|]. by eapply IH.
Qed.

Lemma lseg_last_face fcs : ∀ xs (p : nat) prev cur nxt,
  lseg fcs prev cur (xs ++ [p]) nxt →
  ∃ pc, fcs !! p = Some pc ∧ A2.x1 (EPA.l pc) = nxt.
Proof.
  intros xs p prev cur nxt (mid & _ & Hs)%lseg_app.
  destruct Hs as (_ & pc & Hp & _ & Hn). by exists pc.
Qed.

Lemma lseg_first fcs (x : nat) xs prev cur nxt :
  lseg fcs prev cur (x :: xs) nxt → cur = Some x.
Proof. by intros (-> & _). Qed.

(** [remove] of a face of a chain unlinks it: its neighbours are linked to
    each other, nothing else is written. *)
Lemma remove_lseg fcs (L : EPA.SimplexList) (f : nat) pre post :
  lseg fcs None (EPA.root L) (pre ++ f :: post) None →
  ∃ fcs' L',
    EPA.remove fcs L (Some f) = Some (fcs', L') ∧
    lseg fcs' None (EPA.root L') (pre ++ post) None ∧
    EPA.count L' = size_decr (EPA.count L) ∧
    length fcs' = length fcs ∧
    fcs' !! f = fcs !! f ∧
    (∀ i, i ∉ pre → i ∉ post → fcs' !! i = fcs !! i).
Proof.
  intros Hs.
  pose proof (lseg_NoDup _ _ _ _ Hs) as Hnd.
  apply NoDup_app in Hnd as (Hndpre & Hdisj & Hnd).
  apply NoDup_cons in Hnd as [Hfpost Hndpost].
  assert (f ∉ pre) as Hfpre by (intros Hin; apply (Hdisj f Hin); left).
  apply lseg_app in Hs as (mid & Hpre & Hmid).
  destruct Hmid as (-> & fc & Hfc & Hp0 & Hpost).
  pose proof (lookup_lt_Some _ _ _ Hfc) as Hflt.
  (* the face after [f] *)
  assert (∃ fcs1,
    match A2.x1 (EPA.l fc) with
    | Some _ =>
        EPA.assign fcs (A2.x1 (EPA.l fc))
          (λ x, EPA.with_l x 0 (A2.x0 (EPA.l fc)))
    | None => Some fcs
    end = Some fcs1 ∧
    lseg fcs1 (last_ptr None pre) (A2.x1 (EPA.l fc)) post None ∧
    length fcs1 = length fcs ∧
    (∀ i, i ∉ post → fcs1 !! i = fcs !! i))
    as (fcs1 & H1 & Hpost1 & Hlen1 & Hfr1).
  { destruct post as [|n post'].
    - cbn in Hpost. rewrite Hpost. exists fcs. by repeat split.
    - destruct Hpost as (Hnx & nc & Hnc & Hnp & Hpost').
      apply NoDup_cons in Hndpost as [Hnpost' _].
      rewrite Hnx. cbn. rewrite Hnc. cbn.
      eexists. split; [reflexivity|]. split; [|split].
      + rewrite <- Hp0.
        eapply lseg_set_prev; [|done|done|reflexivity].
        split; [done|]. by exists nc.
      + by rewrite length_insert.
      + intros i Hi. apply list_lookup_insert_ne.
        intros ->. apply Hi. left. }
  assert (fcs1 !! f = Some fc) as Hfc1 by (by rewrite Hfr1).
  (* the face before [f] *)
  assert (∃ fcs2 root',
    match A2.x0 (EPA.l fc) with
    | Some _ =>
        EPA.assign fcs1 (A2.x0 (EPA.l fc))
          (λ x, EPA.with_l x 1 (A2.x1 (EPA.l fc)))
    | None => Some fcs1
    end = Some fcs2 ∧
    (if decide ((Some f : EPA.SimplexF_ptr) = EPA.root L)
     then fc2 ← EPA.load fcs2 (Some f); A2.get (EPA.l fc2) 1
     else Some (EPA.root L)) = Some root' ∧
    lseg fcs2 None root' pre (A2.x1 (EPA.l fc)) ∧
    length fcs2 = length fcs1 ∧
    (∀ i, i ∉ pre → fcs2 !! i = fcs1 !! i))
    as (fcs2 & root' & H2 & Hroot' & Hpre2 & Hlen2 & Hfr2).
  { destruct pre as [|p pre' _] using rev_ind.
    - cbn in Hpre. unfold last_ptr in Hp0. cbn in Hp0. rewrite Hp0.
      exists fcs1, (A2.x1 (EPA.l fc)).
      rewrite Hpre, decide_True by done. cbn. rewrite Hfc1. cbn.
      by repeat split.
    - assert (last_ptr None (pre' ++ [p]) = Some p) as Hlast
        by (unfold last_ptr; by rewrite last_snoc).
      rewrite Hlast in Hp0.
      apply not_elem_of_app in Hfpre as [Hfpre' Hfp].
      apply NoDup_app in Hndpre as (_ & Hpp & _).
      assert (p ∉ pre') as Hppre
        by (intros Hin; apply (Hpp p Hin); left).
      assert (p ∉ post) as Hppost.
      { intros Hin.
        apply (Hdisj p); [apply elem_of_app; right; left|by right]. }
      destruct (lseg_last_face _ _ _ _ _ _ Hpre) as (pc & Hpc & Hpn).
      assert (fcs1 !! p = Some pc) as Hpc1 by (by rewrite Hfr1).
      assert (Some f ≠ EPA.root L) as Hroot.
      { intros Heq. destruct (pre' ++ [p]) as [|x xs] eqn:Hx.
        - by destruct pre'.
        - apply lseg_first in Hpre. rewrite Hpre in Heq.
          injection Heq as ->.
          assert (x ∈ pre' ++ [p]) as Hin by (rewrite Hx; left).
          apply elem_of_app in Hin as [Hin|Hin%list_elem_of_singleton];
            [done|]. apply Hfp. subst. left. }
      eexists _, _. rewrite decide_False by done.
      rewrite Hp0. cbn. rewrite Hpc1. cbn.
      split; [reflexivity|]. split; [reflexivity|].
      split; [|split].
      + eapply lseg_set_next; [|done|done|reflexivity].
        eapply lseg_ext; [exact Hpre|].
        intros i Hi. apply Hfr1. intros Hin. by apply (Hdisj i); [|right].
      + by rewrite length_insert.
      + intros i Hi. apply list_lookup_insert_ne.
        intros ->. apply Hi, elem_of_app. right. left. }
  assert (EPA.load fcs (Some f) = Some fc) as Hld by exact Hfc.
  assert (EPA.load fcs1 (Some f) = Some fc) as Hld1 by exact Hfc1.
  unfold EPA.remove. rewrite Hld. cbn [mbind option_bind A2.get].
  rewrite H1. cbn [mbind option_bind]. rewrite Hld1.
  cbn [mbind option_bind A2.get]. rewrite H2. cbn [mbind option_bind].
  cbn [A2.get] in Hroot'. rewrite Hroot'. cbn [mbind option_bind].
  eexists _, _. split; [reflexivity|].
  split; [|split; [done|split; [congruence|split]]].
  - cbn. apply lseg_app.
    exists (A2.x1 (EPA.l fc)). split; [done|].
    eapply lseg_ext; [exact Hpost1|].
    intros i Hi. apply Hfr2. intros Hin. by apply (Hdisj i); [|right].
  - by rewrite Hfr2, Hfr1.
  - intros i Hi1 Hi2. by rewrite Hfr2, Hfr1.
Qed.
Lemma size_incr_decr (z : Z) : is_size_t z → size_incr (size_decr z) = z.
Proof.
  unfold is_size_t, size_decr, size_incr. intros Hz.
  rewrite Zplus_mod_idemp_l.
  replace (z - 1 + 1) with z by lia.
  apply Z.mod_small. exact Hz.
Qed.

(** [append] writes the face and the former root only. *)
Lemma append_frame fcs (L : EPA.SimplexList) (f : nat) fcs' L' :
  EPA.append fcs L (Some f) = Some (fcs', L') →
  ∀ i, i ≠ f → Some i ≠ EPA.root L → fcs' !! i = fcs !! i.
Proof.
  unfold EPA.append. intros Happ i Hif Hir.
  apply bind_Some in Happ as (fcs1 & H1 & Happ).
  apply bind_Some in Happ as (fcs2 & H2 & Happ).
  apply bind_Some in Happ as (fcs3 & H3 & Happ).
  injection Happ as <- <-.
  apply assign_inv in H1 as (? & x & x1 & [= <-] & _ & _ & ->).
  apply assign_inv in H2 as (? & y & y1 & [= <-] & _ & _ & ->).
  destruct (EPA.root L) as [r|].
  - apply assign_inv in H3 as (? & z & z1 & [= <-] & _ & _ & ->).
    rewrite !list_lookup_insert_ne; [done|done|done|congruence].
  - injection H3 as <-. by rewrite !list_lookup_insert_ne.
Qed.

Lemma lseg_cons fcs (i : nat) fc prev fs nxt :
  fcs !! i = Some fc → A2.x0 (EPA.l fc) = prev →
  lseg fcs (Some i) (A2.x1 (EPA.l fc)) fs nxt →
  lseg fcs prev (Some i) (i :: fs) nxt.
Proof. intros Hi Hp Hs. split; [done|]. by exists fc. Qed.

(** [append] of a face of the arena that is not in the chain puts it in
    front. *)
Lemma append_lseg fcs (L : EPA.SimplexList) (f : nat) fs :
  lseg fcs None (EPA.root L) fs None → (f < length fcs)%nat → f ∉ fs →
  ∃ fcs' L',
    EPA.append fcs L (Some f) = Some (fcs', L') ∧
    lseg fcs' None (EPA.root L') (f :: fs) None ∧
    EPA.count L' = size_incr (EPA.count L) ∧
    length fcs' = length fcs.
Proof.
  intros Hs Hf Hnot.
  destruct (append_defined fcs L f Hf) as (fcs' & L' & Happ).
  { intros r Hr. eapply lseg_in_arena; [exact Hs|].
    destruct fs as [|x fs']; cbn in Hs; [congruence|].
    destruct Hs as (Hx & _). rewrite Hr in Hx. injection Hx as ->. left. }
  exists fcs', L'. split; [exact Happ|].
  pose proof (append_length _ _ _ _ _ Happ) as Hlen.
  pose proof (append_list _ _ _ _ _ Happ) as [Hroot Hcount].
  split; [|done]. rewrite Hroot.
  eapply walk_lseg, append_walk; [|by eapply lseg_NoDup|done|exact Happ].
  by apply lseg_walk.
Qed.


(** X1: [append] of a face of the arena that is not on a well-formed list
    is defined and puts the face in front: the list then links the face
    followed by the former faces, its count is one more (modulo the width of
    [size_t]), and in the arena only the face and the former first face are
    written. *)
Theorem append_fresh fcs (L : EPA.SimplexList) (f : nat) fs :
  faces_of fcs L = Some fs → (f < length fcs)%nat → f ∉ fs →
  ∃ fcs' L',
    EPA.append fcs L (Some f) = Some (fcs', L') ∧
    faces_of fcs' L' = Some (f :: fs) ∧
    EPA.count L' = size_incr (EPA.count L) ∧
    (∀ i, i ≠ f → Some i ≠ EPA.root L → fcs' !! i = fcs !! i).
Proof.
  intros Hfs Hf Hnot. apply faces_of_lseg in Hfs.
  destruct (append_lseg fcs L f fs Hfs Hf Hnot)
    as (fcs' & L' & Happ & Hs & Hc & _).
  exists fcs', L'. split; [exact Happ|].
  split; [by apply faces_of_lseg|]. split; [exact Hc|].
  by eapply append_frame.
Qed.

(** X2: [remove] of a face of a well-formed list is defined and unlinks it,
    wherever it stands: the list then links the faces before it followed by
    the faces after it, its count is one less, the removed face keeps its own
    (stale) links, and no face outside the list is written. *)
Theorem remove_member fcs (L : EPA.SimplexList) (f : nat) pre post :
  faces_of fcs L = Some (pre ++ f :: post) →
  ∃ fcs' L',
    EPA.remove fcs L (Some f) = Some (fcs', L') ∧
    faces_of fcs' L' = Some (pre ++ post) ∧
    EPA.count L' = size_decr (EPA.count L) ∧
    fcs' !! f = fcs !! f ∧
    (∀ i, i ∉ pre → i ∉ post → fcs' !! i = fcs !! i).
Proof.
  intros Hfs. apply faces_of_lseg in Hfs.
  destruct (remove_lseg fcs L f pre post Hfs)
    as (fcs' & L' & Hrm & Hs & Hc & _ & Hf & Hfr).
  exists fcs', L'. split; [exact Hrm|].
  split; [by apply faces_of_lseg|]. by repeat split.
Qed.

(** X3: [remove] of the first face of a well-formed list followed by
    [append] of the same face gives back the arena and the list exactly. *)
Theorem remove_append_first fcs (L : EPA.SimplexList) (f : nat) post :
  faces_of fcs L = Some (f :: post) → is_size_t (EPA.count L) →
  ∃ fcs1 L1,
    EPA.remove fcs L (Some f) = Some (fcs1, L1) ∧
    EPA.append fcs1 L1 (Some f) = Some (fcs, L).
Proof.
  intros Hfs Hc. apply faces_of_lseg in Hfs as Hs.
  pose proof (lseg_NoDup _ _ _ _ Hs) as [Hnot _]%NoDup_cons.
  destruct Hs as (Hroot & fc & Hfc & Hp & Hs).
  pose proof (lookup_lt_Some _ _ _ Hfc) as Hlt.
  destruct L as [root cnt]. simpl in Hroot, Hc. subst root.
  destruct fc as [fn fd fcv ff [l0 l1] fe fp]. simpl in Hp. subst l0.
  destruct post as [|n post'].
  - simpl in Hs. subst l1.
    unfold EPA.remove, EPA.append, EPA.assign, EPA.load.
    repeat first [rewrite Hfc | rewrite decide_True by done | progress arena].
    eexists _, _. split; [reflexivity|].
    repeat first [rewrite Hfc | progress arena].
    rewrite size_incr_decr by done.
    rewrite list_insert_insert_eq, list_insert_id by done. done.
  - destruct Hs as (Hl1 & nc & Hnc & Hnp & _). simpl in Hl1. subst l1.
    apply not_elem_of_cons in Hnot as [Hne _].
    pose proof (lookup_lt_Some _ _ _ Hnc) as Hltn.
    destruct nc as [nn nd ncv nf [nl0 nl1] ne np]. simpl in Hnp. subst nl0.
    unfold EPA.remove, EPA.append, EPA.assign, EPA.load.
    repeat first [rewrite Hfc | rewrite Hnc | rewrite decide_True by done
                 | progress arena].
    eexists _, _. split; [reflexivity|].
    repeat first [rewrite Hfc | rewrite Hnc | progress arena].
    rewrite size_incr_decr by done. do 2 f_equal.
    apply list_eq. intros i.
    destruct (decide (i = n)) as [->|Hin]; [by arena|].
    destruct (decide (i = f)) as [->|Hif]; by arena.
Qed.

(** X4: [remove] does not check that the face is on the list: for a face
    with both links null that is not the root it writes nothing, keeps the
    root and still decrements the count, which wraps from 0 to 2^64 - 1. *)
Theorem remove_unlinked fcs (L : EPA.SimplexList) (f : nat) fc :
  fcs !! f = Some fc → EPA.l fc = A2.mk None None →
  EPA.root L ≠ Some f →
  EPA.remove fcs L (Some f)
    = Some (fcs, {| EPA.root := EPA.root L;
                    EPA.count := size_decr (EPA.count L) |}) ∧
  (EPA.count L = 0 → size_decr (EPA.count L) = 18446744073709551615).
Proof.
  intros Hfc Hl Hroot. split.
  - unfold EPA.remove, EPA.load. simpl. rewrite Hfc. simpl. rewrite Hl. simpl.
    rewrite Hfc. simpl. rewrite Hl. simpl.
    rewrite decide_False by congruence. done.
  - intros ->. reflexivity.
Qed.

(** X9: [append] does not check that the face is off the list: appending
    the first face of a well-formed list again makes it its own predecessor
    and successor, so that the links no longer form a list, while the count
    goes up by one. *)
Theorem append_first_again fcs (L : EPA.SimplexList) (f : nat) fs :
  faces_of fcs L = Some (f :: fs) →
  ∃ fcs' L',
    EPA.append fcs L (Some f) = Some (fcs', L') ∧
    EPA.root L' = Some f ∧
    EPA.count L' = size_incr (EPA.count L) ∧
    EPA.l <$> fcs' !! f = Some (A2.mk (Some f) (Some f)) ∧
    faces_of fcs' L' = None.
Proof.
  intros Hfs. apply faces_of_lseg in Hfs as Hs.
  destruct Hs as (Hroot & fc & Hfc & _ & _).
  pose proof (lookup_lt_Some _ _ _ Hfc) as Hlt.
  unfold EPA.append, EPA.assign. simpl. rewrite Hfc. arena.
  rewrite Hroot. arena.
  eexists _, _. split; [reflexivity|]. simpl.
  split; [done|]. split; [done|]. arena. split; [done|].
  unfold faces_of. rewrite !length_insert. simpl.
  destruct (length fcs) as [|k] eqn:Hk; [lia|].
  simpl. rewrite list_lookup_insert_eq by (rewrite !length_insert; lia).
  simpl. rewrite ?decide_False by done. done.
Qed.


(** X14: moving a face from one well-formed list to another that shares no
    face with it ([remove] from the first, [append] to the second) is defined
    and leaves both well-formed: the first without the face, the second with
    the face in front, the counts one less and one more. *)
Theorem move_between_lists fcs (stock hull : EPA.SimplexList) (f : nat)
    pre post hs :
  faces_of fcs stock = Some (pre ++ f :: post) →
  faces_of fcs hull = Some hs →
  (∀ i, i ∈ pre ++ f :: post → i ∉ hs) →
  ∃ fcs1 stock' fcs2 hull',
    EPA.remove fcs stock (Some f) = Some (fcs1, stock') ∧
    EPA.append fcs1 hull (Some f) = Some (fcs2, hull') ∧
    faces_of fcs2 stock' = Some (pre ++ post) ∧
    faces_of fcs2 hull' = Some (f :: hs) ∧
    EPA.count stock' = size_decr (EPA.count stock) ∧
    EPA.count hull' = size_incr (EPA.count hull).
Proof.
  intros Hs Hh Hdisj.
  apply faces_of_lseg in Hs, Hh.
  pose proof (lseg_NoDup _ _ _ _ Hs) as Hnd.
  apply NoDup_app in Hnd as (_ & Hfpre & [Hfpost _]%NoDup_cons).
  assert (f ∉ pre) as Hf1 by (intros Hin; apply (Hfpre f Hin); left).
  assert (f ∉ hs) as Hfh.
  { apply Hdisj, elem_of_app. right. left. }
  destruct (remove_lseg fcs stock f pre post Hs)
    as (fcs1 & stock' & Hrm & Hs1 & Hc1 & Hlen1 & Hf & Hfr1).
  assert (lseg fcs1 None (EPA.root hull) hs None) as Hh1.
  { eapply lseg_ext; [exact Hh|]. intros i Hi. apply Hfr1.
    - intros Hin. apply (Hdisj i); [|done]. apply elem_of_app. by left.
    - intros Hin. apply (Hdisj i); [|done].
      apply elem_of_app. right. by right. }
  destruct (append_lseg fcs1 hull f hs Hh1)
    as (fcs2 & hull' & Happ & Hh2 & Hc2 & _).
  { rewrite Hlen1. eapply lseg_in_arena; [exact Hs|].
    apply elem_of_app. right. left. }
  { exact Hfh. }
  exists fcs1, stock', fcs2, hull'.
  split; [exact Hrm|]. split; [exact Happ|].
  split; [|split; [by apply faces_of_lseg|done]].
  apply faces_of_lseg. eapply lseg_ext; [exact Hs1|].
  intros i Hi. eapply append_frame; [exact Happ| |].
  - intros ->. apply elem_of_app in Hi as [Hi|Hi]; done.
  - intros Hr. destruct hs as [|r hs']; cbn in Hh1; [congruence|].
    destruct Hh1 as (Hroot & _). rewrite Hroot in Hr. injection Hr as ->.
    apply (Hdisj r); [|left].
    apply elem_of_app in Hi as [Hi|Hi]; apply elem_of_app;
      [by left|right; by right].
Qed.

Lemma lseg_length_bound fcs fs prev cur :
  lseg fcs prev cur fs None → (length fs ≤ length fcs)%nat.
Proof.
  intros Hs. apply NoDup_bounded_length;
    [by eapply lseg_NoDup|by eapply lseg_in_arena].
Qed.

(** X15: on an arena of fewer than 2^64 slots the count of a list keeps
    being the number of faces it links: if it is before [append] of a face
    off the list, or before [remove] of a face of the list, it is after. *)
Theorem count_tracks_faces fcs (L : EPA.SimplexList) fs :
  faces_of fcs L = Some fs →
  EPA.count L = Z.of_nat (length fs) →
  Z.of_nat (length fcs) < size_modulus →
  (∀ f : nat, (f < length fcs)%nat → f ∉ fs →
     ∃ fcs' L', EPA.append fcs L (Some f) = Some (fcs', L') ∧
       faces_of fcs' L' = Some (f :: fs) ∧
       EPA.count L' = Z.of_nat (length (f :: fs))) ∧
  (∀ (f : nat) pre post, fs = pre ++ f :: post →
     ∃ fcs' L', EPA.remove fcs L (Some f) = Some (fcs', L') ∧
       faces_of fcs' L' = Some (pre ++ post) ∧
       EPA.count L' = Z.of_nat (length (pre ++ post))).
Proof.
  intros Hfs Hc Hsmall. apply faces_of_lseg in Hfs as Hs.
  pose proof (lseg_length_bound _ _ _ _ Hs) as Hbound.
  split.
  - intros f Hf Hnot.
    destruct (append_lseg fcs L f fs Hs Hf Hnot)
      as (fcs' & L' & Happ & Hs' & Hc' & Hlen).
    exists fcs', L'. split; [exact Happ|].
    split; [by apply faces_of_lseg|].
    pose proof (lseg_length_bound _ _ _ _ Hs') as Hb'.
    rewrite Hc', Hc. unfold size_incr. cbn [length] in *.
    rewrite Z.mod_small; lia.
  - intros f pre post ->.
    destruct (remove_lseg fcs L f pre post Hs)
      as (fcs' & L' & Hrm & Hs' & Hc' & _).
    exists fcs', L'. split; [exact Hrm|].
    split; [by apply faces_of_lseg|].
    rewrite Hc', Hc. unfold size_decr.
    rewrite !length_app in *. cbn [length] in *.
    rewrite Z.mod_small; lia.
Qed.
End Chains.

(** ** [bind] *)

Section Binding.
Context `{LA : LinAlg}.
Implicit Types (fcs : list EPA.SimplexF) (fs : list nat).

Lemma A3_set_get {A} (a a' : A3.t A) (k : Z) (v : A) :
  A3.set a k v = Some a' →
  A3.get a' k = Some v ∧ ∀ k', k' ≠ k → A3.get a' k' = A3.get a k'.
Proof.
  destruct k as [|[[]|[]|]|]; cbn; intros [= <-]; (split; [done|]);
    intros [|[[]|[]|]|] Hk; done.
Qed.

Lemma assign_keeps {B} (proj : EPA.SimplexF → B) fcs ptr upd fcs' (i : nat) :
  EPA.assign fcs ptr upd = Some fcs' →
  (ptr = Some i → ∀ x x', upd x = Some x' → proj x' = proj x) →
  proj <$> fcs' !! i = proj <$> fcs !! i.
Proof.
  intros (j & fc & fc' & -> & Hj & Hu & ->)%assign_inv Hkeep.
  destruct (decide (i = j)) as [->|Hne].
  - rewrite list_lookup_insert_eq by (by eapply lookup_lt_Some).
    rewrite Hj. cbn. f_equal. by eapply Hkeep.
  - by rewrite list_lookup_insert_ne.
Qed.

(** What is read of a face across edge [k]. *)
Lemma neighbour_lookup fcs (i : nat) (k : Z) :
  neighbour fcs (Some i) k =
  mjoin ((λ x, q ← A3.get (EPA.f x) k; k' ← A3.get (EPA.e x) k; Some (q, k'))
           <$> fcs !! i).
Proof. unfold neighbour, EPA.load. cbn. by destruct (fcs !! i). Qed.

Lemma with_e_edge x (k : Z) (v : Z) x' :
  EPA.with_e x k v = Some x' →
  EPA.f x' = EPA.f x ∧ EPA.l x' = EPA.l x ∧ EPA.n x' = EPA.n x ∧
  EPA.d x' = EPA.d x ∧ EPA.c x' = EPA.c x ∧ EPA.pass x' = EPA.pass x ∧
  A3.get (EPA.e x') k = Some v ∧
  ∀ k', k' ≠ k → A3.get (EPA.e x') k' = A3.get (EPA.e x) k'.
Proof.
  unfold EPA.with_e. intros (e' & He & [= <-])%bind_Some. cbn.
  apply A3_set_get in He as [? ?]. by repeat split.
Qed.

Lemma with_f_edge x (k : Z) (v : EPA.SimplexF_ptr) x' :
  EPA.with_f x k v = Some x' →
  EPA.e x' = EPA.e x ∧ EPA.l x' = EPA.l x ∧ EPA.n x' = EPA.n x ∧
  EPA.d x' = EPA.d x ∧ EPA.c x' = EPA.c x ∧ EPA.pass x' = EPA.pass x ∧
  A3.get (EPA.f x') k = Some v ∧
  ∀ k', k' ≠ k → A3.get (EPA.f x') k' = A3.get (EPA.f x) k'.
Proof.
  unfold EPA.with_f. intros (f' & Hf & [= <-])%bind_Some. cbn.
  apply A3_set_get in Hf as [? ?]. by repeat split.
Qed.

(** [bind] writes [e] and [f] only. *)
Lemma bind_keeps {B} (proj : EPA.SimplexF → B) fcs fa ea fb eb fcs' :
  EPA.bind fcs fa ea fb eb = Some fcs' →
  ∀ i,
    (∀ x x' k v, fa = Some i ∧ k = ea ∨ fb = Some i ∧ k = eb →
       EPA.with_e x k v = Some x' → proj x' = proj x) →
    (∀ x x' k v, fa = Some i ∧ k = ea ∨ fb = Some i ∧ k = eb →
       EPA.with_f x k v = Some x' → proj x' = proj x) →
    proj <$> fcs' !! i = proj <$> fcs !! i.
Proof.
  unfold EPA.bind. intros Hb i He Hf.
  apply bind_Some in Hb as (fcs1 & H1 & Hb).
  apply bind_Some in Hb as (fcs2 & H2 & Hb).
  apply bind_Some in Hb as (fcs3 & H3 & H4).
  rewrite (assign_keeps proj _ _ _ _ i H4),
          (assign_keeps proj _ _ _ _ i H3),
          (assign_keeps proj _ _ _ _ i H2),
          (assign_keeps proj _ _ _ _ i H1); [done|..];
    intros Hp x x' Hx; [eapply He|eapply Hf|eapply He|eapply Hf]; eauto.
Qed.

Lemma walk_links fcs fcs' :
  (∀ i, EPA.l <$> fcs' !! i = EPA.l <$> fcs !! i) →
  ∀ fuel prev cur, walk fuel fcs' prev cur = walk fuel fcs prev cur.
Proof.
  intros Hl. induction fuel as [|fuel IH]; intros prev [i|]; try done.
  cbn. specialize (Hl i).
  destruct (fcs' !! i) as [x'|], (fcs !! i) as [x|]; cbn in *; try done.
  injection Hl as Hl. rewrite Hl. destruct (decide _); [|done].
  by rewrite IH.
Qed.

Lemma bind_neighbour_frame fcs fa ea fb eb fcs' (i : nat) (k : Z) :
  EPA.bind fcs fa ea fb eb = Some fcs' →
  (Some i, k) ≠ (fa, ea) → (Some i, k) ≠ (fb, eb) →
  neighbour fcs' (Some i) k = neighbour fcs (Some i) k.
Proof.
  intros Hb Ha Hbb. rewrite !neighbour_lookup. f_equal.
  eapply bind_keeps; [exact Hb|..].
  - intros x x' k0 v Hor Hx.
    apply with_e_edge in Hx as (-> & _ & _ & _ & _ & _ & _ & Hk).
    rewrite Hk; [done|]. intros ->.
    destruct Hor as [[-> ->]|[-> ->]]; done.
  - intros x x' k0 v Hor Hx.
    apply with_f_edge in Hx as (-> & _ & _ & _ & _ & _ & _ & Hk).
    rewrite Hk; [done|]. intros ->.
    destruct Hor as [[-> ->]|[-> ->]]; done.
Qed.

(** X5: where [bind] is defined it writes nothing but [e[ea]], [f[ea]] of
    [fa] and [e[eb]], [f[eb]] of [fb]: normals, distances, vertices, list
    links and pass marks of all faces are kept, faces other than the two are
    untouched, every other edge reads as before, and every list has the faces
    it had. *)
Theorem bind_frame fcs fa ea fb eb fcs' :
  EPA.bind fcs fa ea fb eb = Some fcs' →
  (∀ i, (λ x, (EPA.n x, EPA.d x, EPA.c x, EPA.l x, EPA.pass x)) <$> fcs' !! i
        = (λ x, (EPA.n x, EPA.d x, EPA.c x, EPA.l x, EPA.pass x)) <$> fcs !! i) ∧
  (∀ i, Some i ≠ fa → Some i ≠ fb → fcs' !! i = fcs !! i) ∧
  (∀ i k, (Some i, k) ≠ (fa, ea) → (Some i, k) ≠ (fb, eb) →
          neighbour fcs' (Some i) k = neighbour fcs (Some i) k) ∧
  (∀ L, faces_of fcs' L = faces_of fcs L).
Proof.
  intros Hb. split; [|split; [|split]].
  - intros i. eapply bind_keeps; [exact Hb|..].
    + intros x x' k v _ Hx.
      by apply with_e_edge in Hx as (_ & -> & -> & -> & -> & -> & _).
    + intros x x' k v _ Hx.
      by apply with_f_edge in Hx as (_ & -> & -> & -> & -> & -> & _).
  - intros i Ha Hbb.
    pose proof (bind_keeps id _ _ _ _ _ _ Hb i) as Hid.
    rewrite !option_fmap_id in Hid. apply Hid.
    + intros x x' k v [[-> _]|[-> _]]; done.
    + intros x x' k v [[-> _]|[-> _]]; done.
  - intros i k. by apply bind_neighbour_frame.
  - intros L. unfold faces_of. rewrite (bind_length _ _ _ _ _ _ Hb).
    apply walk_links. intros i. eapply bind_keeps; [exact Hb|..].
    + intros x x' k v _ Hx. by apply with_e_edge in Hx as (_ & -> & _).
    + intros x x' k v _ Hx. by apply with_f_edge in Hx as (_ & -> & _).
Qed.


Lemma A3_set_range {A} (a a' : A3.t A) (k : Z) (v : A) :
  A3.set a k v = Some a' → 0 ≤ k < 3.
Proof. destruct k as [|[[]|[]|]|]; cbn; intros [=]; lia. Qed.

(** Where [bind] is defined, its two faces are in the arena and its two
    edges below 3. *)
Lemma bind_defined_inv fcs fa ea fb eb fcs' :
  EPA.bind fcs fa ea fb eb = Some fcs' →
  ∃ a b : nat, fa = Some a ∧ fb = Some b ∧
    (a < length fcs)%nat ∧ (b < length fcs)%nat ∧ 0 ≤ ea < 3 ∧ 0 ≤ eb < 3.
Proof.
  unfold EPA.bind. intros Hb.
  apply bind_Some in Hb as (fcs1 & H1 & Hb).
  apply bind_Some in Hb as (fcs2 & H2 & Hb).
  apply bind_Some in Hb as (fcs3 & H3 & H4).
  pose proof (assign_length _ _ _ _ H1) as Hl1.
  pose proof (assign_length _ _ _ _ H2) as Hl2.
  apply assign_inv in H1 as (a & x & x' & -> & Ha & Hx & _).
  apply assign_inv in H3 as (b & y & y' & -> & Hb' & Hy & _).
  exists a, b. split; [done|]. split; [done|].
  apply lookup_lt_Some in Ha, Hb'.
  unfold EPA.with_e in Hx, Hy.
  apply bind_Some in Hx as (? & Hx%A3_set_range & _).
  apply bind_Some in Hy as (? & Hy%A3_set_range & _).
  repeat split; lia.
Qed.

Lemma bind_neighbours fcs fa ea fb eb fcs' :
  EPA.bind fcs fa ea fb eb = Some fcs' →
  neighbour fcs' fa ea = Some (fb, eb) ∧
  neighbour fcs' fb eb = Some (fa, ea).
Proof.
  intros Hb.
  destruct (bind_defined_inv _ _ _ _ _ _ Hb)
    as (a & b & -> & -> & Ha & Hbl & Hea & Heb).
  destruct (lookup_lt_is_Some_2 fcs a Ha) as [xa Hxa].
  destruct (lookup_lt_is_Some_2 fcs b Hbl) as [xb Hxb].
  assert (ea = 0 ∨ ea = 1 ∨ ea = 2) as Ea by lia.
  assert (eb = 0 ∨ eb = 1 ∨ eb = 2) as Eb by lia.
  revert Hb. unfold EPA.bind, neighbour, EPA.assign, EPA.load.
  destruct (decide (a = b)) as [->|Hne].
  - destruct Ea as [->|[->| ->]], Eb as [->|[->| ->]];
      cbn; rewrite ?Hxa; arena; intros [= <-]; arena; done.
  - destruct Ea as [->|[->| ->]], Eb as [->|[->| ->]];
      cbn; rewrite ?Hxa; arena; rewrite ?Hxb; arena;
      intros [= <-]; arena; done.
Qed.

(** X6: [bind] does not undo an earlier binding: after [fa]'s edge [ea] was
    bound to [fb] and then bound again to another face [fc], [fa] records
    [fc], but [fb] still records [fa] across its edge [eb]. *)
Theorem rebind_leaves_stale_link fcs (fa fb fc : nat) ea eb ec fcs1 fcs2 :
  EPA.bind fcs (Some fa) ea (Some fb) eb = Some fcs1 →
  EPA.bind fcs1 (Some fa) ea (Some fc) ec = Some fcs2 →
  fb ≠ fa → fb ≠ fc →
  neighbour fcs2 (Some fa) ea = Some (Some fc, ec) ∧
  neighbour fcs2 (Some fb) eb = Some (Some fa, ea).
Proof.
  intros H1 H2 Hba Hbc. split.
  - by apply bind_neighbours in H2 as [? _].
  - rewrite (bind_neighbour_frame _ _ _ _ _ _ fb eb H2);
      [|congruence|congruence].
    by apply bind_neighbours in H1 as [_ ?].
Qed.


Lemma bind_swap fcs fa ea fb eb fcs' :
  EPA.bind fcs fa ea fb eb = Some fcs' →
  EPA.bind fcs fb eb fa ea = Some fcs'.
Proof.
  intros Hb.
  destruct (bind_defined_inv _ _ _ _ _ _ Hb)
    as (a & b & -> & -> & Ha & Hbl & Hea & Heb).
  destruct (lookup_lt_is_Some_2 fcs a Ha) as [xa Hxa].
  destruct (lookup_lt_is_Some_2 fcs b Hbl) as [xb Hxb].
  assert (ea = 0 ∨ ea = 1 ∨ ea = 2) as Ea by lia.
  assert (eb = 0 ∨ eb = 1 ∨ eb = 2) as Eb by lia.
  revert Hb. unfold EPA.bind, EPA.assign.
  destruct (decide (a = b)) as [->|Hne].
  - destruct Ea as [->|[->| ->]], Eb as [->|[->| ->]];
      cbn; rewrite ?Hxa; arena; intros [= <-]; f_equal;
      apply list_eq; intros i;
      (destruct (decide (i = b)) as [->|]; [by arena|by arena]).
  - destruct Ea as [->|[->| ->]], Eb as [->|[->| ->]];
      cbn; rewrite ?Hxa, ?Hxb; arena; rewrite ?Hxa, ?Hxb; arena;
      intros [= <-]; f_equal;
      apply list_eq; intros i;
      (destruct (decide (i = a)) as [->|]; [by arena|]);
      (destruct (decide (i = b)) as [->|]; [by arena|by arena]).
Qed.

(** X7: [bind(fa, ea, fb, eb)] and [bind(fb, eb, fa, ea)] do the same: they
    are defined on the same arenas and give the same arena, also when the two
    faces or the two edges coincide. *)
Theorem bind_commutes fcs fa ea fb eb :
  EPA.bind fcs fa ea fb eb = EPA.bind fcs fb eb fa ea.
Proof.
  destruct (EPA.bind fcs fa ea fb eb) as [fcs1|] eqn:H1.
  - symmetry. by apply bind_swap.
  - destruct (EPA.bind fcs fb eb fa ea) as [fcs2|] eqn:H2; [|done].
    apply bind_swap in H2. congruence.
Qed.

End Binding.

(** ** [initialize], again *)

Section Reinitialize.
Context `{LA : LinAlg}.

(** X8: [initialize] is no reset: called again on a constructed engine it
    leaves [stock] with root slot 0 and count 256, and every slot's successor
    link is the next slot modulo 128 -- slot 127 points back at slot 0 -- so
    that the links of [stock] no longer form a list. *)
Theorem initialize_again_is_circular (u : EPA.uninit) :
  ∃ ep ep',
    EPA.construct u = Some ep ∧
    EPA.initialize ep = Some ep' ∧
    EPA.stock ep' = {| EPA.root := Some O; EPA.count := 256 |} ∧
    (λ x, A2.x1 (EPA.l x)) <$> EPA.fc_store ep'
      = (λ i, Some ((i + 1) mod 128)%nat) <$> seq 0 128 ∧
    faces_of (EPA.fc_store ep') (EPA.stock ep') = None.
Proof.
  eexists _, _. split; [vm_compute; reflexivity|].
  split; [vm_compute; reflexivity|].
  repeat split; vm_compute; reflexivity.
Qed.
End Reinitialize.

(** ** The queries, again *)

Section MoreQueries.
Context {LA : LinAlg} {EV : Evaluators}.

(** The stores of [shapeIntersect2_ptr] put, in the order of the source, the
    values [shapeIntersect2] leaves behind three pointers that are not
    null. *)
Lemma shapeIntersect2_ptr_cells (ug : GJK.uninit) (ue : EPA.uninit)
    s1 tf1 s2 tf2 cp pd nm (m : Objects) :
  shapeIntersect2_ptr ug ue s1 tf1 s2 tf2 cp pd nm m =
  r ← shapeIntersect2 ug ue s1 tf1 s2 tf2
        (Some Vec3f_default) (Some (real_of_int 0)) (Some Vec3f_default);
  if overlap r then
    x ← penetration_depth r;
    n ← normal r;
    c ← contact_points r;
    m ← store_real pd x m;
    m ← store_vector nm n m;
    m ← store_vector cp c m;
    Some (true, m)
  else Some (false, m).
Proof.
  unfold shapeIntersect2_ptr, shapeIntersect2. cbn zeta.
  generalize (EPA.construct ue). intros made.
  destruct (GJK_evaluate _ _ _) as [st gjk].
  destruct st; try reflexivity.
  destruct made as [epa|]; [|reflexivity]. cbn [mbind option_bind].
  destruct (EPA_evaluate _ _ _) as [[st' epa'] gjk'].
  destruct (decide (st' ≠ EPA.Failed)); [|reflexivity].
  destruct (for_range _ _ _ _) as [w0|]; reflexivity.
Qed.

Lemma store_vector_Some (ptr : option nat) (v : Vec3f) (m m' : Objects) :
  store_vector ptr v m = Some m' →
  reals m' = reals m ∧
  (∀ a, Some a ≠ ptr → vectors m' !! a = vectors m !! a) ∧
  (∀ a, ptr = Some a → vectors m' !! a = Some v) ∧
  (∀ q, designates (vectors m) q → designates (vectors m') q).
Proof.
  destruct ptr as [p|]; cbn.
  - intros Hst. apply bind_Some in Hst as (v0 & Hv0 & Hst).
    injection Hst as <-. cbn. split; [reflexivity|]. split; [|split].
    + intros a Ha. apply list_lookup_insert_ne. congruence.
    + intros a [= ->]. apply list_lookup_insert_eq.
      by apply lookup_lt_is_Some; exists v0.
    + intros [q|]; cbn; [|done].
      by rewrite !lookup_lt_is_Some, length_insert.
  - intros [= <-]. by repeat split.
Qed.

Lemma store_real_Some (ptr : option nat) (x : BVH_REAL) (m m' : Objects) :
  store_real ptr x m = Some m' →
  vectors m' = vectors m ∧
  (∀ a, Some a ≠ ptr → reals m' !! a = reals m !! a) ∧
  (∀ a, ptr = Some a → reals m' !! a = Some x).
Proof.
  destruct ptr as [p|]; cbn.
  - intros Hst. apply bind_Some in Hst as (x0 & Hx0 & Hst).
    injection Hst as <-. cbn. split; [reflexivity|]. split.
    + intros a Ha. apply list_lookup_insert_ne. congruence.
    + intros a [= ->]. apply list_lookup_insert_eq.
      by apply lookup_lt_is_Some; exists x0.
  - intros [= <-]. by repeat split.
Qed.

Lemma store_vector_defined (ptr : option nat) (v : Vec3f) (m : Objects) :
  designates (vectors m) ptr → is_Some (store_vector ptr v m).
Proof.
  destruct ptr as [p|]; cbn; [|by eexists].
  intros [v0 ->]. by eexists.
Qed.

Lemma store_real_defined (ptr : option nat) (x : BVH_REAL) (m : Objects) :
  designates (reals m) ptr → is_Some (store_real ptr x m).
Proof.
  destruct ptr as [p|]; cbn; [|by eexists].
  intros [x0 ->]. by eexists.
Qed.

(** X10: with output pointers that are null or designate objects of the
    caller, what [shapeIntersect2] returns does not depend on the pointers,
    and with all three null it stores nothing.  Otherwise the objects no
    pointer designates are left as they were, and what is left in
    [*penetration_depth] and in [*contact_points] is what a call with that
    pointer alone leaves there.  The same holds of [*normal] unless [normal]
    and [contact_points] designate one object: the contact point is stored
    last, over the normal. *)
Theorem shapeIntersect2_outputs_optional (ug : GJK.uninit) (ue : EPA.uninit)
    s1 tf1 s2 tf2 (cp pd nm : option nat) (m : Objects) :
  designates (vectors m) cp →
  designates (reals m) pd →
  designates (vectors m) nm →
  let run cp pd nm := shapeIntersect2_ptr ug ue s1 tf1 s2 tf2 cp pd nm m in
  fst <$> run cp pd nm = fst <$> run None None None ∧
  snd <$> run None None None = (λ _, m) <$> run None None None ∧
  ∀ b m', run cp pd nm = Some (b, m') →
    (∀ a, Some a ≠ cp → Some a ≠ nm → vectors m' !! a = vectors m !! a) ∧
    (∀ a, Some a ≠ pd → reals m' !! a = reals m !! a) ∧
    (∀ a, pd = Some a →
       ∃ m1, run None pd None = Some (b, m1) ∧
             reals m' !! a = reals m1 !! a) ∧
    (∀ a, cp = Some a →
       ∃ m1, run cp None None = Some (b, m1) ∧
             vectors m' !! a = vectors m1 !! a) ∧
    (∀ a, nm = Some a → nm ≠ cp →
       ∃ m1, run None None nm = Some (b, m1) ∧
             vectors m' !! a = vectors m1 !! a).
Proof.
  intros Hcp Hpd Hnm run. unfold run.
  rewrite !shapeIntersect2_ptr_cells.
  destruct (shapeIntersect2 _ _ _ _ _ _ _ _ _) as [[ov c x n]|];
    [|by repeat split]. cbn.
  destruct ov;
    [|split; [reflexivity|]; split; [reflexivity|];
      intros b m' [= <- <-]; repeat split; intros; try done; by exists m].
  destruct x as [x|]; [|by repeat split]. cbn.
  destruct n as [n|]; [|by repeat split]. cbn.
  destruct c as [c|]; [|by repeat split]. cbn.
  destruct (store_real_defined pd x m Hpd) as [m1 H1].
  destruct (store_real_Some _ _ _ _ H1) as (Hv1 & Hr1 & Hx1).
  assert (designates (vectors m1) nm) as Hnm1 by (by rewrite Hv1).
  assert (designates (vectors m1) cp) as Hcp1 by (by rewrite Hv1).
  destruct (store_vector_defined nm n m1 Hnm1) as [m2 H2].
  destruct (store_vector_Some _ _ _ _ H2) as (Hr2 & Hv2 & Hn2 & Hd2).
  destruct (store_vector_defined cp c m2 (Hd2 _ Hcp1)) as [m3 H3].
  destruct (store_vector_Some _ _ _ _ H3) as (Hr3 & Hv3 & Hc3 & _).
  rewrite H1. cbn. rewrite H2. cbn. rewrite H3. cbn.
  split; [reflexivity|]. split; [reflexivity|].
  intros b m' [= <- <-]. split; [|split; [|split; [|split]]].
  - intros a Hac Han. by rewrite Hv3, Hv2, Hv1.
  - intros a Hap. by rewrite Hr3, Hr2, Hr1.
  - intros a ->. exists m1. split; [reflexivity|]. by rewrite Hr3, Hr2.
  - intros a ->.
    destruct (store_vector_defined (Some a) c m Hcp) as [m4 H4].
    destruct (store_vector_Some _ _ _ _ H4) as (_ & _ & Hc4 & _).
    rewrite H4. cbn. exists m4. split; [reflexivity|].
    by rewrite (Hc3 a), (Hc4 a).
  - intros a -> Hne.
    destruct (store_vector_defined (Some a) n m Hnm) as [m4 H4].
    destruct (store_vector_Some _ _ _ _ H4) as (_ & _ & Hn4 & _).
    rewrite H4. cbn. exists m4. split; [reflexivity|].
    rewrite Hv3 by congruence. by rewrite (Hn2 a), (Hn4 a).
Qed.

(** X12: [shapeDistance2] has no guard for an empty simplex: when GJK ends
    [Valid] with rank 0, it returns true with the length of
    [Vec3f() - Vec3f()]. *)
Theorem shapeDistance2_empty_simplex (ug : GJK.uninit) s1 tf1 s2 tf2
    (sx : GJK.Simplex) :
  let run :=
    GJK_evaluate (GJK.construct ug) (query_shape s1 tf1 s2 tf2)
      (vec_neg guess) in
  run.1 = GJK.Valid →
  GJK.Simplex_at run.2 (GJK.getSimplex run.2) = Some sx →
  GJK.rank sx = 0 →
  shapeDistance2 ug s1 tf1 s2 tf2
  = Some (true, vec_length (vec_sub Vec3f_default Vec3f_default)).
Proof.
  intros run Hst Hsx Hrank. rewrite shapeDistance2_run. cbn zeta.
  fold run. rewrite Hst. unfold GJK_vertices. rewrite Hsx.
  cbn [mbind option_bind]. unfold Simplex_vertices. rewrite Hrank.
  reflexivity.
Qed.

(** X13: when GJK ends [Valid], [shapeDistance2] is defined only if the
    simplex pointer is valid, the rank is at most 4, and each of the vertex
    pointers [c[0 .. rank-1]] designates one of the four slots of
    [gjk.store_v]. *)
Theorem shapeDistance2_defined_needs (ug : GJK.uninit) s1 tf1 s2 tf2 :
  let run :=
    GJK_evaluate (GJK.construct ug) (query_shape s1 tf1 s2 tf2)
      (vec_neg guess) in
  run.1 = GJK.Valid →
  is_Some (shapeDistance2 ug s1 tf1 s2 tf2) →
  ∃ sx, GJK.Simplex_at run.2 (GJK.getSimplex run.2) = Some sx ∧
    GJK.rank sx ≤ 4 ∧
    ∀ i, 0 ≤ i < GJK.rank sx →
      ∃ k, A4.get (GJK.c sx) i = Some (GJK.SV_store_v k) ∧ 0 ≤ k < 4.
Proof.
  intros run Hst. rewrite shapeDistance2_run. cbn zeta. fold run.
  rewrite Hst. unfold GJK_vertices.
  destruct (GJK.Simplex_at run.2 (GJK.getSimplex run.2)) as [sx|];
    [|by intros [? [=]]].
  cbn [mbind option_bind]. intros [r Hr].
  apply bind_Some in Hr as (vs & Hvs & _).
  assert (is_Some (Simplex_vertices (GJK.store_v run.2) [] sx)) as Hall
    by (by eexists).
  apply mapM_is_Some in Hall. rewrite Forall_forall in Hall.
  assert (∀ i, 0 ≤ i < GJK.rank sx →
            is_Some (Simplex_vertex (GJK.store_v run.2) [] sx i)) as Hv.
  { intros i Hi. apply (Hall i). apply list_elem_of_fmap.
    exists (Z.to_nat i). split; [lia|]. apply elem_of_seq. lia. }
  exists sx. split; [done|]. split.
  - destruct (decide (GJK.rank sx ≤ 4)) as [|Hgt]; [done|].
    destruct (Hv 4) as [x Hx]; [lia|]. discriminate Hx.
  - intros i Hi. destruct (Hv i Hi) as [x Hx].
    unfold Simplex_vertex in Hx.
    apply bind_Some in Hx as (ci & Hci & Hx).
    apply bind_Some in Hx as (v & Hv' & _).
    destruct ci as [|k|j]; [done| |done].
    exists k. split; [done|].
    cbn in Hv'. destruct k as [|[[]|[]|]|]; try done; lia.
Qed.

(** X11: the two queries never both succeed on a shape pair (the outcome of
    the engines not depending on uninitialised storage): where
    [shapeDistance2] returns true, [shapeIntersect2] returns false and leaves
    its outputs alone, and where [shapeIntersect2] returns true,
    [shapeDistance2] returns false with -1. *)
Theorem distance_excludes_overlap :
  engines_ignore_uninit →
  ∀ (ug1 ug2 : GJK.uninit) (ue : EPA.uninit) s1 tf1 s2 tf2 cp pd nm,
    (∀ d, shapeDistance2 ug1 s1 tf1 s2 tf2 = Some (true, d) →
          shapeIntersect2 ug2 ue s1 tf1 s2 tf2 cp pd nm
          = Some {| overlap := false; contact_points := cp;
                    penetration_depth := pd; normal := nm |}) ∧
    (∀ r, shapeIntersect2 ug2 ue s1 tf1 s2 tf2 cp pd nm = Some r →
          overlap r = true →
          shapeDistance2 ug1 s1 tf1 s2 tf2 = Some (false, real_of_int (-1))).
Proof.
  intros Hdet ug1 ug2 ue s1 tf1 s2 tf2 cp pd nm.
  destruct (Hdet ug1 ug2 ue ue (query_shape s1 tf1 s2 tf2)
              (vec_neg guess) (vec_neg guess)) as [Hg _].
  apply (f_equal fst) in Hg. unfold GJK_outcome in Hg. cbn [fst] in Hg.
  rewrite shapeDistance2_run, shapeIntersect2_run. cbn zeta.
  rewrite Hg. clear Hg.
  generalize (EPA.construct ue). intros made.
  destruct (GJK_evaluate (GJK.construct ug2) _ _) as [st gjk].
  cbn [fst snd]. split.
  - intros d Hd. destruct st; [reflexivity|discriminate Hd|discriminate Hd].
  - intros r Hr Hov. destruct st; [|reflexivity|];
      injection Hr as <-; discriminate Hov.
Qed.

(** X16: [shapeIntersect2] returns true only if the rank of EPA's result
    simplex is at most 4 and each of its vertex pointers [c[0 .. rank-1]]
    designates a vertex of [gjk.store_v] or of [epa.sv_store]. *)
Theorem shapeIntersect2_overlap_needs (ug : GJK.uninit) (ue : EPA.uninit)
    s1 tf1 s2 tf2 cp pd nm (epa0 : EPA.t) (r : Intersection) :
  let run :=
    GJK_evaluate (GJK.construct ug) (query_shape s1 tf1 s2 tf2)
      (vec_neg guess) in
  let run' := EPA_evaluate epa0 run.2 (vec_neg guess) in
  let sx := EPA.result run'.1.2 in
  EPA.construct ue = Some epa0 →
  shapeIntersect2 ug ue s1 tf1 s2 tf2 cp pd nm = Some r →
  overlap r = true →
  GJK.rank sx ≤ 4 ∧
  ∀ i, 0 ≤ i < GJK.rank sx →
    ∃ ci v, A4.get (GJK.c sx) i = Some ci ∧
      GJK.SimplexV_at (GJK.store_v run'.2) (EPA.sv_store run'.1.2) ci
        = Some v.
Proof.
  intros run run' sx Hepa Hr Hov.
  rewrite shapeIntersect2_run in Hr. cbn zeta in Hr.
  fold run in Hr. rewrite Hepa in Hr. clear Hepa.
  cbn [mbind option_bind] in Hr. fold run' in Hr.
  destruct run.1;
    [injection Hr as <-; discriminate Hov| |injection Hr as <-; discriminate Hov].
  destruct (decide (run'.1.1 ≠ EPA.Failed));
    [|injection Hr as <-; discriminate Hov].
  apply bind_Some in Hr as (vs & Hvs & _).
  assert (is_Some (Simplex_vertices (GJK.store_v run'.2)
                     (EPA.sv_store run'.1.2) sx)) as Hall by (by eexists).
  apply mapM_is_Some in Hall. rewrite Forall_forall in Hall.
  assert (∀ i, 0 ≤ i < GJK.rank sx →
            is_Some (Simplex_vertex (GJK.store_v run'.2)
                       (EPA.sv_store run'.1.2) sx i)) as Hv.
  { intros i Hi. apply (Hall i). apply list_elem_of_fmap.
    exists (Z.to_nat i). split; [lia|]. apply elem_of_seq. lia. }
  split.
  - destruct (decide (GJK.rank sx ≤ 4)) as [|Hgt]; [done|].
    destruct (Hv 4) as [x Hx]; [lia|]. discriminate Hx.
  - intros i Hi. destruct (Hv i Hi) as [x Hx].
    unfold Simplex_vertex in Hx.
    apply bind_Some in Hx as (ci & Hci & Hx).
    apply bind_Some in Hx as (v & Hv' & _).
    by exists ci, v.
Qed.
End MoreQueries.

(** ** These properties at work

    Each statement of this part with a premise, applied to the sample arena
    and to the scripted engines of the definitions part. *)

Ltac not_in_list :=
  let Hin := fresh "Hin" in
  intros Hin;
  repeat (apply elem_of_cons in Hin as [Hin|Hin]; [lia|]);
  by apply elem_of_nil in Hin.

Module MoreOnDoubles.

#[local] Existing Instance Double.lin_alg.

(** X1: slot 3 appended to the list of slots 1 and 2. *)
Lemma append_fresh_witness :
  ∃ fcs' L',
    EPA.append Sample.arena Sample.pair (Some 3%nat) = Some (fcs', L') ∧
    faces_of fcs' L' = Some [3; 1; 2]%nat ∧
    EPA.count L' = 3.
Proof.
  destruct (append_fresh Sample.arena Sample.pair 3 [1; 2]%nat)
    as (fcs' & L' & Happ & Hfs & Hc & _).
  - reflexivity.
  - simpl. lia.
  - not_in_list.
  - exists fcs', L'. split; [exact Happ|]. split; [exact Hfs|].
    rewrite Hc. reflexivity.
Defined.

(** X2: slot 1 removed from the list of slots 1 and 2. *)
Lemma remove_member_witness :
  ∃ fcs' L',
    EPA.remove Sample.arena Sample.pair (Some 1%nat) = Some (fcs', L') ∧
    faces_of fcs' L' = Some [2%nat] ∧
    EPA.count L' = 1.
Proof.
  destruct (remove_member Sample.arena Sample.pair 1 [] [2%nat])
    as (fcs' & L' & Hrm & Hfs & Hc & _).
  - reflexivity.
  - exists fcs', L'. split; [exact Hrm|]. split; [exact Hfs|].
    rewrite Hc. reflexivity.
Defined.

(** X3: slot 1 removed from the list of slots 1 and 2 and appended again. *)
Lemma remove_append_first_witness :
  ∃ fcs1 L1,
    EPA.remove Sample.arena Sample.pair (Some 1%nat) = Some (fcs1, L1) ∧
    EPA.append fcs1 L1 (Some 1%nat) = Some (Sample.arena, Sample.pair).
Proof.
  apply (remove_append_first Sample.arena Sample.pair 1 [2%nat]).
  - reflexivity.
  - unfold is_size_t, size_modulus, size_bits. simpl. lia.
Defined.

(** X4: slot 3, on no list, removed from the empty list. *)
Lemma remove_unlinked_witness :
  EPA.remove Sample.arena Sample.empty (Some 3%nat)
  = Some (Sample.arena,
          {| EPA.root := None; EPA.count := 18446744073709551615 |}).
Proof.
  destruct (remove_unlinked Sample.arena Sample.empty 3
              (Sample.linked None None)) as [Hrm Hc].
  - reflexivity.
  - reflexivity.
  - discriminate.
  - rewrite Hrm, Hc; reflexivity.
Defined.

(** X9: slot 1, first of the list of slots 1 and 2, appended again. *)
Lemma append_first_again_witness :
  ∃ fcs' L',
    EPA.append Sample.arena Sample.pair (Some 1%nat) = Some (fcs', L') ∧
    faces_of fcs' L' = None.
Proof.
  destruct (append_first_again Sample.arena Sample.pair 1 [2%nat])
    as (fcs' & L' & Happ & _ & _ & _ & Hfs).
  - reflexivity.
  - exists fcs', L'. split; [exact Happ|exact Hfs].
Defined.

(** X14: slot 2 moved from the list of slots 1 and 2 to the list of
    slot 0. *)
Lemma move_between_lists_witness :
  ∃ fcs1 stock' fcs2 hull',
    EPA.remove Sample.arena Sample.pair (Some 2%nat) = Some (fcs1, stock') ∧
    EPA.append fcs1 Sample.single (Some 2%nat) = Some (fcs2, hull') ∧
    faces_of fcs2 stock' = Some [1%nat] ∧
    faces_of fcs2 hull' = Some [2; 0]%nat.
Proof.
  destruct (move_between_lists Sample.arena Sample.pair Sample.single 2
              [1%nat] [] [0%nat])
    as (fcs1 & stock' & fcs2 & hull' & Hrm & Happ & Hs & Hh & _).
  - reflexivity.
  - reflexivity.
  - intros i Hi.
    repeat (apply elem_of_cons in Hi as [->|Hi]; [not_in_list|]).
    by apply elem_of_nil in Hi.
  - exists fcs1, stock', fcs2, hull'. by repeat split.
Defined.

(** X5: edge 1 of slot 0 bound to edge 2 of slot 3; the list of slots 1 and
    2 is as before. *)
Lemma bind_frame_witness :
  ∃ fcs',
    EPA.bind Sample.arena (Some 0%nat) 1 (Some 3%nat) 2 = Some fcs' ∧
    faces_of fcs' Sample.pair = Some [1; 2]%nat.
Proof.
  destruct (EPA.bind Sample.arena (Some 0%nat) 1 (Some 3%nat) 2)
    as [fcs'|] eqn:Hb; [|vm_compute in Hb; discriminate Hb].
  exists fcs'. split; [reflexivity|].
  destruct (bind_frame _ _ _ _ _ _ Hb) as (_ & _ & _ & HL).
  rewrite HL. reflexivity.
Defined.

(** X6: edge 1 of slot 0 bound to edge 2 of slot 1, then to edge 0 of
    slot 2. *)
Lemma rebind_leaves_stale_link_witness :
  ∃ fcs1 fcs2,
    EPA.bind Sample.arena (Some 0%nat) 1 (Some 1%nat) 2 = Some fcs1 ∧
    EPA.bind fcs1 (Some 0%nat) 1 (Some 2%nat) 0 = Some fcs2 ∧
    neighbour fcs2 (Some 0%nat) 1 = Some (Some 2%nat, 0) ∧
    neighbour fcs2 (Some 1%nat) 2 = Some (Some 0%nat, 1).
Proof.
  destruct (EPA.bind Sample.arena (Some 0%nat) 1 (Some 1%nat) 2)
    as [fcs1|] eqn:H1; [|vm_compute in H1; discriminate H1].
  destruct (EPA.bind fcs1 (Some 0%nat) 1 (Some 2%nat) 0)
    as [fcs2|] eqn:H2.
  - exists fcs1, fcs2. split; [reflexivity|]. split; [exact H2|].
    apply (rebind_leaves_stale_link _ _ _ _ _ _ _ _ _ H1 H2); lia.
  - vm_compute in H1. injection H1 as <-.
    vm_compute in H2. discriminate H2.
Defined.

(** X10: on the overlapping spheres, with [contact_points] and [normal]
    both pointing at vector 0 of the caller: it ends holding the contact
    point, as after a call with [contact_points] alone. *)
Lemma shapeIntersect2_outputs_optional_witness :
  ∃ m' m1,
    @shapeIntersect2_ptr _ (Double.scripted GJK.Inside EPA.AccuracyReached)
      Double.blank_GJK Double.blank_EPA
      Double.unit_sphere Double.at_origin Double.unit_sphere Double.at_one
      (Some 0%nat) (Some 0%nat) (Some 0%nat) Sample.objects
    = Some (true, m') ∧
    @shapeIntersect2_ptr _ (Double.scripted GJK.Inside EPA.AccuracyReached)
      Double.blank_GJK Double.blank_EPA
      Double.unit_sphere Double.at_origin Double.unit_sphere Double.at_one
      (Some 0%nat) None None Sample.objects
    = Some (true, m1) ∧
    vectors m' !! 0%nat = vectors m1 !! 0%nat ∧
    vectors m1 !! 0%nat
    = Some {| Double.x := (-0.875)%float; Double.y := 0%float;
              Double.z := 0%float |}.
Proof.
  destruct (shapeIntersect2_outputs_optional
              (EV := Double.scripted GJK.Inside EPA.AccuracyReached)
              Double.blank_GJK Double.blank_EPA
              Double.unit_sphere Double.at_origin
              Double.unit_sphere Double.at_one
              (Some 0%nat) (Some 0%nat) (Some 0%nat) Sample.objects)
    as (_ & _ & Hstores).
  - by eexists.
  - by eexists.
  - by eexists.
  - destruct (@shapeIntersect2_ptr _
                (Double.scripted GJK.Inside EPA.AccuracyReached)
                Double.blank_GJK Double.blank_EPA
                Double.unit_sphere Double.at_origin
                Double.unit_sphere Double.at_one
                (Some 0%nat) (Some 0%nat) (Some 0%nat) Sample.objects)
      as [[b m']|] eqn:Hr; [|vm_compute in Hr; discriminate Hr].
    destruct (Hstores b m' eq_refl) as (_ & _ & _ & Hcp & _).
    destruct (Hcp 0%nat eq_refl) as (m1 & Hm1 & Hsame).
    assert (b = true) as ->
      by (vm_compute in Hr; injection Hr as <- _; reflexivity).
    exists m', m1. split; [reflexivity|]. split; [exact Hm1|].
    split; [exact Hsame|].
    vm_compute in Hm1. injection Hm1 as <-. reflexivity.
Defined.

(** X11: on the spheres three apart, GJK ending [Valid]. *)
Lemma distance_excludes_overlap_witness :
  @shapeIntersect2 _ (Double.scripted GJK.Valid EPA.Failed)
    Double.stale_GJK Double.stale_EPA
    Double.unit_sphere Double.at_origin Double.unit_sphere Double.at_three
    (Some Double.zero) None None
  = Some {| overlap := false; contact_points := Some Double.zero;
            penetration_depth := None; normal := None |}.
Proof.
  apply (proj1 (distance_excludes_overlap
                  (EV := Double.scripted GJK.Valid EPA.Failed)
                  ltac:(intros ug1 ug2 ue1 ue2 shape g0 g1;
                        split; vm_compute; reflexivity)
                  Double.blank_GJK Double.stale_GJK Double.stale_EPA
                  Double.unit_sphere Double.at_origin
                  Double.unit_sphere Double.at_three
                  (Some Double.zero) None None) 5%float).
  vm_compute. reflexivity.
Defined.

(** X12: GJK ending [Valid] with an empty simplex. *)
Lemma shapeDistance2_empty_simplex_witness :
  @shapeDistance2 _ Sample.empty_engines Double.blank_GJK
    Double.unit_sphere Double.at_origin Double.unit_sphere Double.at_three
  = Some (true, 0%float).
Proof.
  etransitivity.
  - apply (shapeDistance2_empty_simplex (EV := Sample.empty_engines)
             Double.blank_GJK
             Double.unit_sphere Double.at_origin
             Double.unit_sphere Double.at_three Double.blank_simplex);
      reflexivity.
  - vm_compute. reflexivity.
Defined.

(** X13: GJK ending [Valid] with one vertex, in slot 0 of [store_v]. *)
Lemma shapeDistance2_defined_needs_witness :
  ∃ sx,
    GJK.Simplex_at
      (@GJK_evaluate _ (Double.scripted GJK.Valid EPA.Failed)
         (GJK.construct Double.blank_GJK)
         (query_shape Double.unit_sphere Double.at_origin
            Double.unit_sphere Double.at_three) (vec_neg guess)).2
      (Some 0) = Some sx ∧
    GJK.rank sx ≤ 4 ∧
    ∃ k, A4.get (GJK.c sx) 0 = Some (GJK.SV_store_v k) ∧ 0 ≤ k < 4.
Proof.
  destruct (shapeDistance2_defined_needs
              (EV := Double.scripted GJK.Valid EPA.Failed)
              Double.blank_GJK
              Double.unit_sphere Double.at_origin
              Double.unit_sphere Double.at_three)
    as (sx & Hsx & Hrank & Hptr).
  - reflexivity.
  - eexists. vm_compute. reflexivity.
  - exists sx. split; [exact Hsx|]. split; [exact Hrank|].
    apply Hptr. vm_compute in Hsx. injection Hsx as <-. simpl. lia.
Defined.

(** X15: slot 3 appended to the list of slots 1 and 2, whose count is 2. *)
Lemma count_tracks_faces_witness :
  ∃ fcs' L',
    EPA.append Sample.arena Sample.pair (Some 3%nat) = Some (fcs', L') ∧
    faces_of fcs' L' = Some [3; 1; 2]%nat ∧
    EPA.count L' = 3.
Proof.
  destruct (count_tracks_faces Sample.arena Sample.pair [1; 2]%nat)
    as [Happ _].
  - reflexivity.
  - reflexivity.
  - reflexivity.
  - apply (Happ 3%nat); [simpl; lia|not_in_list].
Defined.

(** X16: on the overlapping spheres, EPA ending [AccuracyReached] with two
    vertices. *)
Lemma shapeIntersect2_overlap_needs_witness :
  ∃ epa0,
    EPA.construct Double.blank_EPA = Some epa0 ∧
    GJK.rank
      (EPA.result
         (@EPA_evaluate _ (Double.scripted GJK.Inside EPA.AccuracyReached)
            epa0
            (@GJK_evaluate _ (Double.scripted GJK.Inside EPA.AccuracyReached)
               (GJK.construct Double.blank_GJK)
               (query_shape Double.unit_sphere Double.at_origin
                  Double.unit_sphere Double.at_one) (vec_neg guess)).2
            (vec_neg guess)).1.2) ≤ 4.
Proof.
  destruct (EPA.construct Double.blank_EPA) as [epa0|] eqn:Hc;
    [|vm_compute in Hc; discriminate Hc].
  destruct (@shapeIntersect2 _
              (Double.scripted GJK.Inside EPA.AccuracyReached)
              Double.blank_GJK Double.blank_EPA
              Double.unit_sphere Double.at_origin
              Double.unit_sphere Double.at_one None None None)
    as [r|] eqn:Hr; [|vm_compute in Hr; discriminate Hr].
  assert (overlap r = true) as Hov
    by (vm_compute in Hr; injection Hr as <-; reflexivity).
  destruct (shapeIntersect2_overlap_needs
              (EV := Double.scripted GJK.Inside EPA.AccuracyReached)
              _ _ _ _ _ _ _ _ _ epa0 r Hc Hr Hov) as [Hrank _].
  exists epa0. split; [reflexivity|exact Hrank].
Defined.
End MoreOnDoubles.
